(** * A model of [stylecheckertwo.py]

    The style checker parses one Python file with [ast.parse], records a
    [parent] attribute on every child node ([add_parents]) and then runs a
    family of extractors, each of which iterates [ast.walk] over the tree.

    The syntax tree is a rose tree of nodes. The parser builds a node object
    of its own for every position of the tree, except for the nodes of the
    classes without fields (the expression contexts and the operators), of
    which there is one object per class, met again at every position where
    the class occurs. The [parent] attributes written by [add_parents] live
    in a finite map from node objects to the position of the parent. *)

From Stdlib Require Import Ascii String List Arith Bool Lia Permutation Sorted.
From Stdlib Require OrderedTypeEx.
From stdpp Require Import base list strings gmap.
Import ListNotations.

(** ** Syntax trees *)

(** An expression node (an annotation), kept as its source text.  Every AST
    node object is truthy, so only the presence of an annotation matters. *)
Definition expr : Type := string.

(** [ast.arg]. *)
Record arg : Type := mk_arg {
  arg_name : string;
  annotation : option expr
}.

(** [ast.arguments]: the parameter list of a declaration. [args] holds the
    positional-or-keyword parameters; the other fields hold the
    positional-only ones, [*name], the keyword-only ones and [**name]. *)
Record arguments : Type := mk_arguments {
  posonlyargs : list arg;
  args : list arg;
  vararg : option arg;
  kwonlyargs : list arg;
  kwarg : option arg
}.

(** [ast.alias], an item of an import statement. *)
Record alias : Type := mk_alias {
  alias_name : string;
  asname : option string
}.

(** The node classes the extractors test for with [isinstance]; every other
    statement or expression class is [Other]. The [docstring] field of a
    declaration is the value [ast.get_docstring] returns for it: [None]
    when the body does not start with a string literal, the cleaned text
    otherwise.

    [Singleton] stands for the classes without fields: the expression
    contexts [Load], [Store] and [Del] and the operators ([Add], [Not],
    [Eq], [And], ...). [ast.parse] does not build a node per occurrence of
    these: it keeps one object per class and puts that object wherever the
    class occurs, so that [Name.ctx] of every name that is read is the same
    [Load] object. Such a node has no child. *)
Inductive kind : Type :=
| Module
| Import (names : list alias)
| ImportFrom (names : list alias)
| ClassDef (name : string) (docstring : option string)
| FunctionDef (name : string) (fargs : arguments) (returns : option expr)
              (docstring : option string)
| AsyncFunctionDef (name : string) (fargs : arguments) (returns : option expr)
                   (docstring : option string)
| Singleton (class_name : string)
| Other.

(** A node with the nodes [ast.iter_child_nodes] yields for it, in order. *)
#[warnings="-register-all"]
Inductive node : Type :=
| Node (k : kind) (children : list node).

Definition kind_of (n : node) : kind :=
  match n with Node k _ => k end.

Definition children (n : node) : list node :=
  match n with Node _ cs => cs end.

Fixpoint node_size (n : node) : nat :=
  match n with
  | Node _ cs => S (list_sum (map node_size cs))
  end.

(** A position in the tree: the child indices leading to it from the
    root. *)
Definition path : Type := list nat.

(** The identity of a node object: the position the parser built it for,
    or, for a node of a class without fields, the class. *)
Definition obj : Type := path + string.

Definition obj_of (pn : path * node) : obj :=
  match kind_of pn.2 with
  | Singleton class_name => inr class_name
  | _ => inl pn.1
  end.

Fixpoint node_at (t : node) (p : path) : option node :=
  match p with
  | [] => Some t
  | i :: p' =>
      match children t !! i with
      | Some c => node_at c p'
      | None => None
      end
  end.

(** [ast.iter_child_nodes], with the position of each child. *)
Definition child_nodes (pn : path * node) : list (path * node) :=
  imap (fun i c => (pn.1 ++ [i], c)) (children pn.2).

(** ** [ast.walk]

    [[
    todo = deque([node])
    while todo:
        node = todo.popleft()
        todo.extend(iter_child_nodes(node))
        yield node
    ]]
    The loop runs once per node of the tree; [fuel] bounds its iterations. *)
Fixpoint walk_queue (fuel : nat) (todo : list (path * node))
  : list (path * node) :=
  match fuel, todo with
  | S fuel', pn :: rest => pn :: walk_queue fuel' (rest ++ child_nodes pn)
  | _, _ => []
  end.

Definition walk (t : node) : list (path * node) :=
  walk_queue (node_size t) [([], t)].

(** *** Tree orders used to describe [ast.walk] *)

(** The nodes at depth [d] below [pn], from left to right. *)
Fixpoint at_depth (d : nat) (pn : path * node) : list (path * node) :=
  match d with
  | 0 => [pn]
  | S d' => flat_map (at_depth d') (child_nodes pn)
  end.

(** Breadth-first (level) order: the root, then all nodes at depth 1, then
    all nodes at depth 2, and so on. No node lies deeper than the size of
    the tree. *)
Definition level_order (t : node) : list (path * node) :=
  flat_map (fun d => at_depth d ([], t)) (seq 0 (node_size t)).

(** Pre-order: a node, then the pre-order of each of its subtrees in turn. *)
Fixpoint preorder (p : path) (n : node) : list (path * node) :=
  (p, n) ::
  match n with
  | Node _ cs =>
      (fix subtrees (i : nat) (cs : list node) : list (path * node) :=
         match cs with
         | [] => []
         | c :: cs' => preorder (p ++ [i]) c ++ subtrees (S i) cs'
         end) 0 cs
  end.

(** The total size of a queue of subtrees, and its levels one after the
    other: the measures the facts about [walk_queue] are stated with. *)
Definition forest_size (q : list (path * node)) : nat :=
  list_sum (map (fun pn => node_size pn.2) q).

Fixpoint levels (h : nat) (q : list (path * node)) : list (path * node) :=
  match h with
  | 0 => []
  | S h' => q ++ levels h' (flat_map child_nodes q)
  end.


(** ** Strings and patterns

    A Python string is kept as the bytes of its UTF-8 encoding. The letters
    and digits of the two patterns are ASCII ones, so a character outside
    ASCII, whose bytes are all above 127, is in none of their ranges. *)

Definition newline : ascii := "010"%char.
Definition underscore : ascii := "_"%char.

(** [str.startswith]. *)
Fixpoint startswith (pre s : string) : bool :=
  match pre, s with
  | EmptyString, _ => true
  | String a pre', String b s' => Ascii.eqb a b && startswith pre' s'
  | String _ _, EmptyString => false
  end.

(** [str.endswith]: some tail of [s] is [suf]. *)
Fixpoint endswith (suf s : string) : bool :=
  String.eqb s suf ||
  match s with
  | EmptyString => false
  | String _ s' => endswith suf s'
  end.

(** [[
    def is_special_method(name: str) -> bool:
        return name.startswith('__') and name.endswith('__')
    ]] *)
Definition is_special_method (name : string) : bool :=
  startswith "__" name && endswith "__" name.

(** Character ranges of the two patterns. *)
Definition in_range (lo hi c : ascii) : bool :=
  (nat_of_ascii lo <=? nat_of_ascii c) && (nat_of_ascii c <=? nat_of_ascii hi).

Definition lower : ascii -> bool := in_range "a" "z".
Definition upper : ascii -> bool := in_range "A" "Z".
Definition digit : ascii -> bool := in_range "0" "9".
Definition alnum (c : ascii) : bool := upper c || lower c || digit c.
Definition is_underscore (c : ascii) : bool := Ascii.eqb c underscore.
Definition is_newline (c : ascii) : bool := Ascii.eqb c newline.

(** Regular expressions, as far as the two patterns of the program use
    them. *)
Inductive regex : Type :=
| Void
| Eps
| Class (p : ascii -> bool)
| Cat (r1 r2 : regex)
| Alt (r1 r2 : regex)
| Star (r : regex).

(** [r+] and [r?]. *)
Definition Plus (r : regex) : regex := Cat r (Star r).
Definition Opt (r : regex) : regex := Alt r Eps.

(** [$] outside MULTILINE mode: the end of the string, or the position just
    before a line feed that ends the string. As the last item of a pattern
    it lets the rest of the subject be empty or one line feed. *)
Definition Dollar : regex := Opt (Class is_newline).

Fixpoint nullable (r : regex) : bool :=
  match r with
  | Void => false
  | Eps => true
  | Class _ => false
  | Cat r1 r2 => nullable r1 && nullable r2
  | Alt r1 r2 => nullable r1 || nullable r2
  | Star _ => true
  end.

(** The derivative of [r] by the character [c]. *)
Fixpoint deriv (c : ascii) (r : regex) : regex :=
  match r with
  | Void => Void
  | Eps => Void
  | Class p => if p c then Eps else Void
  | Cat r1 r2 =>
      if nullable r1
      then Alt (Cat (deriv c r1) r2) (deriv c r2)
      else Cat (deriv c r1) r2
  | Alt r1 r2 => Alt (deriv c r1) (deriv c r2)
  | Star r1 => Cat (deriv c r1) (Star r1)
  end.

(** Whether [r] matches the whole of [s]. *)
Fixpoint matches (r : regex) (s : list ascii) : bool :=
  match s with
  | [] => nullable r
  | c :: s' => matches (deriv c r) s'
  end.

(** [re.match(pattern, s)] for a pattern of the form [^r$]: the match starts
    at the start of [s] whatever [^] says, and [$] closes it. The result is
    used for its truth value only. *)
Definition re_match (r : regex) (s : string) : bool :=
  matches (Cat r Dollar) (list_ascii_of_string s).

(** [r'^[A-Z][A-Za-z0-9]*$'] *)
Definition class_name_pattern : regex :=
  Cat (Class upper) (Star (Class alnum)).

(** [r'^([a-z]+_?)*[a-z]+$'] *)
Definition function_name_pattern : regex :=
  Cat (Star (Cat (Plus (Class lower)) (Opt (Class is_underscore))))
      (Plus (Class lower)).

(** The language of a regular expression. *)
Inductive lang : regex -> list ascii -> Prop :=
| lang_eps : lang Eps []
| lang_class p c : p c = true -> lang (Class p) [c]
| lang_cat r1 r2 s1 s2 : lang r1 s1 -> lang r2 s2 -> lang (Cat r1 r2) (s1 ++ s2)
| lang_alt_l r1 r2 s : lang r1 s -> lang (Alt r1 r2) s
| lang_alt_r r1 r2 s : lang r2 s -> lang (Alt r1 r2) s
| lang_star_nil r : lang (Star r) []
| lang_star_cons r s1 s2 :
    lang r s1 -> lang (Star r) s2 -> lang (Star r) (s1 ++ s2).

(** *** The naming conventions in the words of the specification *)

(** A group of lowercase letters: at least one, and nothing else. *)
Definition lowercase_group (g : list ascii) : Prop :=
  g <> [] /\ Forall (fun c => lower c = true) g.

(** Groups joined by single underscores. *)
Fixpoint join_underscore (gs : list (list ascii)) : list ascii :=
  match gs with
  | [] => []
  | [g] => g
  | g :: gs' => g ++ underscore :: join_underscore gs'
  end.

(** "One or more groups of lowercase letters optionally separated by single
    underscores": no leading, trailing or double underscore and no digit
    can occur, since every group is non-empty and all lowercase. *)
Definition snake_case (name : string) : Prop :=
  exists gs : list (list ascii),
    gs <> [] /\ Forall lowercase_group gs /\
    list_ascii_of_string name = join_underscore gs.

(** "Starts with one uppercase letter, followed by any run of letters and
    digits". *)
Definition camel_case (name : string) : Prop :=
  exists c rest,
    list_ascii_of_string name = c :: rest /\
    upper c = true /\ Forall (fun x => alnum x = true) rest.

(** Whether the last character of [s] is a line feed; never so for an
    identifier. *)
Definition ends_with_newline (s : string) : bool :=
  endswith (String newline EmptyString) s.

(** ** The annotated tree *)

(** The tree the extractors receive: the parsed nodes, and the [parent]
    attribute of every node object that has one, a reference to the node
    at the position given. *)
Record ast : Type := mk_ast {
  root : node;
  parent : gmap obj path
}.

(** What [parse_ast] returns for a file with syntax tree [t]: no node has
    a [parent] attribute yet. *)
Definition parse_ast (t : node) : ast := mk_ast t ∅.

(** [getattr(node, 'parent', None)] for the node the walk yields as
    [pn]. *)
Definition getattr_parent (tree : ast) (pn : path * node) : option node :=
  match parent tree !! obj_of pn with
  | Some q => node_at (root tree) q
  | None => None
  end.

(** [isinstance(x, ast.ClassDef)], where [x] may be [None]. *)
Definition isinstance_ClassDef (x : option node) : bool :=
  match x with
  | Some (Node (ClassDef _ _) _) => true
  | _ => false
  end.

(** Truth value of an optional AST node: [None] is false, a node is true. *)
Definition truthy {A : Type} (x : option A) : bool :=
  match x with
  | Some _ => true
  | None => false
  end.

(** Truth value of an optional string: [None] and the empty string are
    false. *)
Definition truthy_str (x : option string) : bool :=
  match x with
  | Some (String _ _) => true
  | _ => false
  end.

(** [[
    def add_parents(tree: ast.AST) -> ast.AST:
        for node in ast.walk(tree):
            for child in ast.iter_child_nodes(node):
                child.parent = node
        return tree
    ]] *)
Definition add_parents (tree : ast) : ast :=
  mk_ast (root tree)
    (fold_left
       (fun attrs pn =>
          fold_left (fun attrs' child => <[obj_of child := pn.1]> attrs')
                    (child_nodes pn) attrs)
       (walk (root tree)) (parent tree)).

(** ** The extractors *)

(** [sorted(set(xs))] on strings: ascending, without duplicates. *)
Fixpoint insert_sorted (x : string) (l : list string) : list string :=
  match l with
  | [] => [x]
  | y :: l' =>
      match String.compare x y with
      | Lt => x :: l
      | Eq => l
      | Gt => y :: insert_sorted x l'
      end
  end.

Definition sorted_set (xs : list string) : list string :=
  fold_right insert_sorted [] xs.

(** [node.names[0].name]; [None] stands for the [IndexError] of an empty
    list. *)
Definition first_name (names : list alias) : option string :=
  match names with
  | [] => None
  | a :: _ => Some (alias_name a)
  end.

(** [[
    def get_imports(tree: ast.AST) -> List[str]:
        return sorted(set(
            node.names[0].name
            for node in ast.walk(tree)
            if isinstance(node, (ast.Import, ast.ImportFrom))
        ))
    ]] *)
Definition get_imports (tree : ast) : option (list string) :=
  sorted_set <$>
  mapM (fun pn =>
          match kind_of pn.2 with
          | Import names | ImportFrom names => first_name names
          | _ => None
          end)
       (List.filter
          (fun pn =>
             match kind_of pn.2 with
             | Import _ | ImportFrom _ => true
             | _ => false
             end)
          (walk (root tree))).

(** [[
    def get_classes(tree: ast.AST) -> List[str]:
        return [node.name for node in ast.walk(tree) if isinstance(node, ast.ClassDef)]
    ]] *)
Definition get_classes (tree : ast) : list string :=
  omap (fun pn =>
          match kind_of pn.2 with
          | ClassDef name _ => Some name
          | _ => None
          end)
       (walk (root tree)).

(** [[
    def get_functions(tree: ast.AST) -> List[str]:
        return [
            node.name for node in ast.walk(tree)
            if isinstance(node, ast.FunctionDef) and not isinstance(getattr(node, 'parent', None), ast.ClassDef)
        ]
    ]] *)
Definition get_functions (tree : ast) : list string :=
  omap (fun pn =>
          match kind_of pn.2 with
          | FunctionDef name _ _ _ =>
              if negb (isinstance_ClassDef (getattr_parent tree pn))
              then Some name else None
          | _ => None
          end)
       (walk (root tree)).

(** The two f-strings of [get_docstrings]. *)
Definition docstring_found (name doc : string) : string :=
  name +:+ String ":" (String newline doc).

Definition docstring_not_found (name : string) : string :=
  name +:+ ": DocString not found.".

(** [[
    def get_docstrings(tree: ast.AST) -> List[str]:
        docstring_info = []
        for node in ast.walk(tree):
            if isinstance(node, (ast.ClassDef, ast.FunctionDef)):
                if isinstance(node, ast.FunctionDef) and is_special_method(node.name):
                    continue
                doc = ast.get_docstring(node)
                if doc:
                    docstring_info.append(f"{node.name}:\n{doc}")
                else:
                    docstring_info.append(f"{node.name}: DocString not found.")
        return docstring_info
    ]] *)
Definition docstring_entry (name : string) (doc : option string) : string :=
  if truthy_str doc
  then docstring_found name (default EmptyString doc)
  else docstring_not_found name.

Definition get_docstrings (tree : ast) : list string :=
  fold_left
    (fun docstring_info pn =>
       match kind_of pn.2 with
       | ClassDef name doc => docstring_info ++ [docstring_entry name doc]
       | FunctionDef name _ _ doc =>
           if is_special_method name then docstring_info
           else docstring_info ++ [docstring_entry name doc]
       | _ => docstring_info
       end)
    (walk (root tree)) [].

(** [[
    def get_type_annotation_issues(tree: ast.AST) -> List[str]:
        missing = []
        for node in ast.walk(tree):
            if isinstance(node, ast.FunctionDef):
                if is_special_method(node.name):
                    continue
                has_annotations = all(arg.annotation for arg in node.args.args)
                if not has_annotations or not node.returns:
                    missing.append(node.name)
        return missing
    ]] *)
Definition get_type_annotation_issues (tree : ast) : list string :=
  fold_left
    (fun missing pn =>
       match kind_of pn.2 with
       | FunctionDef name fargs returns _ =>
           if is_special_method name then missing
           else
             let has_annotations :=
               forallb (fun a => truthy (annotation a)) (args fargs) in
             if negb has_annotations || negb (truthy returns)
             then missing ++ [name] else missing
       | _ => missing
       end)
    (walk (root tree)) [].

(** [[
    def check_class_naming(classes: List[str]) -> List[str]:
        return [cls for cls in classes if not re.match(r'^[A-Z][A-Za-z0-9]*$', cls)]
    ]] *)
Definition check_class_naming (classes : list string) : list string :=
  List.filter (fun cls => negb (re_match class_name_pattern cls)) classes.

(** [[
    def check_function_naming(tree: ast.AST) -> List[str]:
        bad_names = []
        for node in ast.walk(tree):
            if isinstance(node, ast.FunctionDef):
                if is_special_method(node.name):
                    continue
                if not re.match(r'^([a-z]+_?)*[a-z]+$', node.name):
                    bad_names.append(node.name)
        return bad_names
    ]] *)
Definition check_function_naming (tree : ast) : list string :=
  fold_left
    (fun bad_names pn =>
       match kind_of pn.2 with
       | FunctionDef name _ _ _ =>
           if is_special_method name then bad_names
           else if negb (re_match function_name_pattern name)
                then bad_names ++ [name] else bad_names
       | _ => bad_names
       end)
    (walk (root tree)) [].

(** [[
    def get_special_methods(tree: ast.AST) -> List[str]:
        return [
            node.name for node in ast.walk(tree)
            if isinstance(node, ast.FunctionDef) and is_special_method(node.name)
        ]
    ]] *)
Definition get_special_methods (tree : ast) : list string :=
  omap (fun pn =>
          match kind_of pn.2 with
          | FunctionDef name _ _ _ =>
              if is_special_method name then Some name else None
          | _ => None
          end)
       (walk (root tree)).

(** ** What a loop iteration contributes

    Each extractor visits the nodes in the order of [ast.walk] and adds at
    most one item per node. These functions give the item. *)

Definition class_name_of (pn : path * node) : option string :=
  match kind_of pn.2 with
  | ClassDef name _ => Some name
  | _ => None
  end.

Definition function_of (tree : ast) (pn : path * node) : option string :=
  match kind_of pn.2 with
  | FunctionDef name _ _ _ =>
      if isinstance_ClassDef (getattr_parent tree pn) then None
      else Some name
  | _ => None
  end.

Definition docstring_of (pn : path * node) : option string :=
  match kind_of pn.2 with
  | ClassDef name doc => Some (docstring_entry name doc)
  | FunctionDef name _ _ doc =>
      if is_special_method name then None
      else Some (docstring_entry name doc)
  | _ => None
  end.

Definition missing_annotation_of (pn : path * node) : option string :=
  match kind_of pn.2 with
  | FunctionDef name fargs returns _ =>
      if is_special_method name then None
      else if forallb (fun a => truthy (annotation a)) (args fargs)
              && truthy returns
           then None else Some name
  | _ => None
  end.

Definition bad_name_of (pn : path * node) : option string :=
  match kind_of pn.2 with
  | FunctionDef name _ _ _ =>
      if is_special_method name then None
      else if re_match function_name_pattern name then None else Some name
  | _ => None
  end.

(** ** Notions the properties are stated with *)

Definition is_ClassDef (n : node) : bool :=
  match kind_of n with
  | ClassDef _ _ => true
  | _ => false
  end.

Definition is_FunctionDef (n : node) : bool :=
  match kind_of n with
  | FunctionDef _ _ _ _ => true
  | _ => false
  end.

Definition is_AsyncFunctionDef (n : node) : bool :=
  match kind_of n with
  | AsyncFunctionDef _ _ _ _ => true
  | _ => false
  end.

(** The name of a declaration. *)
Definition decl_name (n : node) : string :=
  match kind_of n with
  | ClassDef name _ => name
  | FunctionDef name _ _ _ => name
  | AsyncFunctionDef name _ _ _ => name
  | _ => EmptyString
  end.

(** The documentation string of a declaration, as [ast.get_docstring]
    gives it. *)
Definition decl_docstring (n : node) : option string :=
  match kind_of n with
  | ClassDef _ doc => doc
  | FunctionDef _ _ _ doc => doc
  | AsyncFunctionDef _ _ _ doc => doc
  | _ => None
  end.

(** [p] is a direct child of [q] in the tree [t]. *)
Definition child_of (t : node) (q p : path) : Prop :=
  exists n i c,
    node_at t q = Some n /\ children n !! i = Some c /\ p = q ++ [i].

(** The node of which the node at [p] is a direct child; the root has
    none. *)
Definition parent_node (t : node) (p : path) : option node :=
  match p with
  | [] => None
  | _ :: _ => node_at t (removelast p)
  end.

(** "Its parent node is a class declaration." *)
Definition parent_is_class (t : node) (p : path) : bool :=
  match parent_node t p with
  | Some n => is_ClassDef n
  | None => false
  end.

(** Function declarations, split by the parent-is-class rule. *)
Definition is_free_function (t : node) (pn : path * node) : bool :=
  is_FunctionDef pn.2 && negb (parent_is_class t pn.1).

Definition is_method (t : node) (pn : path * node) : bool :=
  is_FunctionDef pn.2 && parent_is_class t pn.1.

(** A node of a class without fields: not an object of its own. *)
Definition is_singleton (n : node) : bool :=
  match kind_of n with
  | Singleton _ => true
  | _ => false
  end.

(** All the parameters of a declaration, of whatever kind. *)
Definition parameters (a : arguments) : list arg :=
  posonlyargs a ++ args a ++ option_list (vararg a) ++
  kwonlyargs a ++ option_list (kwarg a).

(** "Some parameter lacks a declared type or the declaration lacks a
    declared return type." *)
Definition lacks_annotation (fargs : arguments) (returns : option expr)
  : bool :=
  negb (forallb (fun a => truthy (annotation a)) (parameters fargs))
  || negb (truthy returns).

(** The declarations [get_docstrings] reports on. *)
Definition is_documented_decl (pn : path * node) : bool :=
  match kind_of pn.2 with
  | ClassDef _ _ => true
  | FunctionDef name _ _ _ => negb (is_special_method name)
  | _ => false
  end.

(** The entry format "<name>: <documentation text>", else
    "<name>: DocString not found.". *)
Definition colon_space_entry (n : node) : string :=
  match decl_docstring n with
  | Some text => decl_name n +:+ ": " +:+ text
  | None => decl_name n +:+ ": DocString not found."
  end.

(** The entry format of the program: the name, a colon, a line feed and
    the text when the cleaned documentation string is not empty. *)
Definition colon_newline_entry (n : node) : string :=
  match decl_docstring n with
  | Some (String c text) =>
      decl_name n +:+ String ":" (String newline (String c text))
  | _ => decl_name n +:+ ": DocString not found."
  end.

(** The tree without its async function declarations: each becomes a
    node of no particular class, its children stay. *)
Fixpoint erase_async (n : node) : node :=
  match n with
  | Node k cs =>
      Node match k with
           | AsyncFunctionDef _ _ _ _ => Other
           | _ => k
           end
           (map erase_async cs)
  end.

Definition erase_async_tree (tree : ast) : ast :=
  mk_ast (erase_async (root tree)) (parent tree).

Definition erase_async_at (pn : path * node) : path * node :=
  (pn.1, erase_async pn.2).

(** The assignments [child.parent = node] of one run, in order: the node
    object assigned to, and the value. *)
Definition assignments (t : node) : list (obj * path) :=
  flat_map (fun pn => map (fun child => (obj_of child, pn.1)) (child_nodes pn))
           (walk t).

(** Of a list of objects, those built for a position. *)
Definition own_objects (l : list obj) : list path :=
  omap (fun o => match o with inl p => Some p | inr _ => None end) l.

(** ** Sample files *)

(** A node of a class the extractors do not look for, without child
    nodes: [arguments] without parameters, [arg] without annotation,
    [alias], [Pass], [Constant]. *)
Definition leaf : node := Node Other [].

(** The [Load] object, and a name that is read: [Name(id, ctx=Load())]. *)
Definition load : node := Node (Singleton "Load") [].

Definition name_read : node := Node Other [load].

Definition no_arguments : arguments := mk_arguments [] [] None [] None.

(** [def name(): pass] -- the children are the [arguments] node and the
    statement of the body. *)
Definition plain_def (name : string) : node :=
  Node (FunctionDef name no_arguments None None) [leaf; leaf].

(** [[
    def f( *, x) -> int:
        return x
    ]] *)
Definition keyword_only_args : arguments :=
  mk_arguments [] [] None [mk_arg "x" None] None.

Definition keyword_only_module : node :=
  Node Module
    [Node (FunctionDef "f" keyword_only_args (Some "int") None)
          [Node Other [leaf]; Node Other [name_read]; name_read]].

(** [[
    def do_thing(): pass
    def DoThing(): pass
    def do__thing(): pass
    def _do(): pass
    def do1(): pass
    ]] *)
Definition function_names_module : node :=
  Node Module
    [plain_def "do_thing"; plain_def "DoThing"; plain_def "do__thing";
     plain_def "_do"; plain_def "do1"].

(** [[
    def f():
        "hi"
    class K:
        " "
    ]]
    The documentation string of [K] is empty once cleaned. *)
Definition documented_module : node :=
  Node Module
    [Node (FunctionDef "f" no_arguments None (Some "hi"))
          [leaf; Node Other [leaf]];
     Node (ClassDef "K" (Some EmptyString)) [Node Other [leaf]]].

(** [[
    class A:
        class B:
            pass
    class C:
        pass
    ]] *)
Definition nested_classes_module : node :=
  Node Module
    [Node (ClassDef "A" None) [Node (ClassDef "B" None) [leaf]];
     Node (ClassDef "C" None) [leaf]].

(** [[
    class Foo:
        def __init__(self): pass
        def bar(self): pass
    def baz(x: int) -> int:
        return x
    async def fetch(): pass
    ]] *)
Definition self_arguments : arguments :=
  mk_arguments [] [mk_arg "self" None] None [] None.

Definition int_arguments : arguments :=
  mk_arguments [] [mk_arg "x" (Some "int")] None [] None.

Definition foo_module : node :=
  Node Module
    [Node (ClassDef "Foo" None)
          [Node (FunctionDef "__init__" self_arguments None None)
                [Node Other [leaf]; leaf];
           Node (FunctionDef "bar" self_arguments None None)
                [Node Other [leaf]; leaf]];
     Node (FunctionDef "baz" int_arguments (Some "int") None)
          [Node Other [Node Other [name_read]]; Node Other [name_read];
           name_read];
     Node (AsyncFunctionDef "fetch" no_arguments None None) [leaf; leaf]].

(** [[
    import os, sys
    from typing import List
    import ast
    import os
    ]] *)
Definition imports_module : node :=
  Node Module
    [Node (Import [mk_alias "os" None; mk_alias "sys" None]) [leaf; leaf];
     Node (ImportFrom [mk_alias "List" None]) [leaf];
     Node (Import [mk_alias "ast" None]) [leaf];
     Node (Import [mk_alias "os" None]) [leaf]].


(** ** Notions for the further properties *)

(** Strictly ascending order on strings, as [sorted] compares them. *)
Definition string_lt (a b : string) : Prop := String.compare a b = Lt.

(** An import statement, with its aliases. *)
Definition import_names (n : node) : option (list alias) :=
  match kind_of n with
  | Import names => Some names
  | ImportFrom names => Some names
  | _ => None
  end.

(** A declaration all of whose parameters are positional-or-keyword
    ones. *)
Definition only_plain_parameters (n : node) : bool :=
  match kind_of n with
  | FunctionDef _ fargs _ _ =>
      match posonlyargs fargs, vararg fargs, kwonlyargs fargs, kwarg fargs with
      | [], None, [], None => true
      | _, _, _, _ => false
      end
  | _ => true
  end.

(** The non-special function declarations that lack an annotation. *)
Definition is_unannotated_decl (pn : path * node) : bool :=
  match kind_of pn.2 with
  | FunctionDef name fargs returns _ =>
      negb (is_special_method name) && lacks_annotation fargs returns
  | _ => false
  end.

(** No two nodes of the list lie on one branch: a position below one is
    never a position below another. *)
Definition branches_apart (l : list (path * node)) : Prop :=
  forall i j x y a b,
    l !! i = Some x -> l !! j = Some y -> x.1 ++ a = y.1 ++ b -> i = j.
(** ** Facts about [ast.walk] *)

Lemma forest_size_app q r :
  forest_size (q ++ r) = forest_size q + forest_size r.
Proof. unfold forest_size. now rewrite map_app, list_sum_app. Qed.

Lemma forest_size_imap (g : nat -> path) (cs : list node) :
  forest_size (imap (fun i c => (g i, c)) cs) = list_sum (map node_size cs).
Proof.
  revert g. induction cs as [|c cs IH]; intros g; [reflexivity|].
  cbn. f_equal. exact (IH (fun i => g (S i))).
Qed.

Lemma forest_size_child_nodes pn :
  S (forest_size (child_nodes pn)) = node_size pn.2.
Proof.
  destruct pn as [p [k cs]]. unfold child_nodes. cbn [fst snd children].
  now rewrite (forest_size_imap (fun i => p ++ [i])).
Qed.

Lemma forest_size_flat_map q :
  forest_size (flat_map child_nodes q) + length q = forest_size q.
Proof.
  induction q as [|pn q IH]; [reflexivity|].
  cbn [flat_map length]. rewrite forest_size_app.
  change (forest_size (pn :: q)) with (node_size pn.2 + forest_size q).
  rewrite <- (forest_size_child_nodes pn). lia.
Qed.

(** Emptying the current queue yields it unchanged and leaves the children
    of its nodes, in the same order, behind what was queued after it. *)
Lemma walk_queue_app q r fuel :
  forest_size (q ++ r) <= fuel ->
  walk_queue fuel (q ++ r) =
  q ++ walk_queue (fuel - length q) (r ++ flat_map child_nodes q).
Proof.
  revert r fuel. induction q as [|pn q IH]; intros r fuel Hfuel.
  - cbn. now rewrite Nat.sub_0_r, app_nil_r.
  - rewrite forest_size_app in Hfuel.
    change (forest_size (pn :: q)) with (node_size pn.2 + forest_size q) in Hfuel.
    pose proof (forest_size_child_nodes pn) as Hpn.
    destruct fuel as [|fuel]; [lia|].
    cbn [app walk_queue length flat_map Nat.sub]. f_equal.
    rewrite <- app_assoc, IH.
    + now rewrite <- app_assoc.
    + rewrite !forest_size_app. lia.
Qed.

Lemma levels_nil h : levels h [] = [].
Proof. induction h; cbn; auto. Qed.

Lemma walk_queue_nil fuel : walk_queue fuel [] = [].
Proof. now destruct fuel. Qed.

Lemma walk_queue_levels h q fuel :
  forest_size q <= h -> forest_size q <= fuel ->
  walk_queue fuel q = levels h q.
Proof.
  revert q fuel. induction h as [|h IH]; intros q fuel Hh Hfuel.
  - destruct q as [|pn q]; [apply walk_queue_nil|].
    pose proof (forest_size_child_nodes pn).
    change (forest_size (pn :: q)) with (node_size pn.2 + forest_size q) in Hh.
    lia.
  - destruct q as [|pn q].
    { now rewrite walk_queue_nil, levels_nil. }
    pose proof (forest_size_flat_map (pn :: q)) as Hsz.
    cbn [length] in Hsz.
    rewrite <- (app_nil_r (pn :: q)) at 1.
    rewrite walk_queue_app by (rewrite app_nil_r; exact Hfuel).
    cbn [levels app]. f_equal. f_equal.
    apply IH; cbn [length]; lia.
Qed.

(** More fuel than the size of the queued forest changes nothing: the
    loop of [ast.walk] has ended by then. *)
Lemma walk_queue_fuel q fuel fuel' :
  forest_size q <= fuel -> forest_size q <= fuel' ->
  walk_queue fuel q = walk_queue fuel' q.
Proof.
  intros H H'.
  rewrite (walk_queue_levels (forest_size q) q fuel) by lia.
  now rewrite (walk_queue_levels (forest_size q) q fuel') by lia.
Qed.

Lemma flat_map_flat_map {A B C : Type} (f : A -> list B) (g : B -> list C)
    (l : list A) :
  flat_map g (flat_map f l) = flat_map (fun x => flat_map g (f x)) l.
Proof.
  induction l as [|x l IH]; [reflexivity|].
  cbn. now rewrite flat_map_app, IH.
Qed.

Lemma at_depth_succ d pn :
  flat_map child_nodes (at_depth d pn) = at_depth (S d) pn.
Proof.
  revert pn. induction d as [|d IH]; intros pn.
  - cbn. rewrite app_nil_r.
    induction (child_nodes pn) as [|x l IHl]; cbn; congruence.
  - change (at_depth (S d) pn) with (flat_map (at_depth d) (child_nodes pn)).
    rewrite flat_map_flat_map.
    change (at_depth (S (S d)) pn)
      with (flat_map (at_depth (S d)) (child_nodes pn)).
    apply flat_map_ext. intros x. apply IH.
Qed.

Lemma levels_at_depth h d pn :
  levels h (at_depth d pn) = flat_map (fun e => at_depth e pn) (seq d h).
Proof.
  revert d. induction h as [|h IH]; intros d; [reflexivity|].
  cbn [levels seq flat_map]. f_equal.
  rewrite at_depth_succ. apply IH.
Qed.

(** [ast.walk] yields the nodes of the tree in breadth-first order. *)
Lemma walk_level_order t : walk t = level_order t.
Proof.
  unfold walk, level_order.
  rewrite (walk_queue_levels (node_size t)); cbn; try lia.
  exact (levels_at_depth (node_size t) 0 ([], t)).
Qed.

(** *** Which nodes [ast.walk] yields *)

Lemma in_child_nodes q c pn :
  In (q, c) (child_nodes pn) <->
  exists i, q = pn.1 ++ [i] /\ children pn.2 !! i = Some c.
Proof.
  unfold child_nodes. rewrite <- list_elem_of_In, elem_of_lookup_imap.
  split.
  - intros (i & y & Heq & Hy). inversion Heq; subst. eauto.
  - intros (i & -> & Hi). eauto.
Qed.

Lemma in_at_depth d p n pre t :
  In (p, n) (at_depth d (pre, t)) <->
  exists p', p = pre ++ p' /\ length p' = d /\ node_at t p' = Some n.
Proof.
  revert pre t. induction d as [|d IH]; intros pre t.
  - cbn. split.
    + intros [Heq|[]]. inversion Heq; subst. exists []. now rewrite app_nil_r.
    + intros (p' & -> & Hlen & Hat). destruct p'; [|discriminate].
      cbn in Hat. inversion Hat; subst. left. now rewrite app_nil_r.
  - cbn [at_depth]. rewrite in_flat_map. split.
    + intros ([q c] & Hqc & Hin). apply in_child_nodes in Hqc.
      destruct Hqc as (i & Hq & Hi). cbn [fst snd] in Hq, Hi. subst q.
      apply IH in Hin. destruct Hin as (p' & -> & Hlen & Hat).
      exists (i :: p'). rewrite <- app_assoc. cbn. rewrite Hi. auto.
    + intros (p' & -> & Hlen & Hat). destruct p' as [|i p']; [discriminate|].
      cbn in Hat. destruct (children t !! i) as [c|] eqn:Hi; [|discriminate].
      exists (pre ++ [i], c). split.
      * apply in_child_nodes. eauto.
      * apply IH. exists p'. rewrite <- app_assoc. cbn in Hlen |- *.
        repeat split; auto; lia.
Qed.

Lemma node_size_child (cs : list node) i c :
  cs !! i = Some c -> node_size c <= list_sum (map node_size cs).
Proof.
  revert i. induction cs as [|x cs IH]; intros [|i] H; try discriminate;
    change (list_sum (map node_size (x :: cs)))
      with (node_size x + list_sum (map node_size cs)).
  - inversion H; subst. lia.
  - specialize (IH i H). lia.
Qed.

Lemma node_at_depth t p n :
  node_at t p = Some n -> length p + node_size n <= node_size t.
Proof.
  revert t. induction p as [|i p IH]; intros t H.
  - inversion H; subst. cbn. lia.
  - cbn in H. destruct (children t !! i) as [c|] eqn:Hi; [|discriminate].
    specialize (IH _ H). destruct t as [k cs]. cbn [children] in Hi.
    apply node_size_child in Hi. cbn [length node_size]. lia.
Qed.

Lemma node_size_pos n : 0 < node_size n.
Proof. destruct n. cbn. lia. Qed.

(** [ast.walk] yields exactly the node objects of the tree. *)
Lemma in_walk t p n : In (p, n) (walk t) <-> node_at t p = Some n.
Proof.
  rewrite walk_level_order. unfold level_order. rewrite in_flat_map. split.
  - intros (d & _ & Hin). apply in_at_depth in Hin.
    destruct Hin as (p' & -> & _ & Hat). exact Hat.
  - intros Hat. exists (length p). split.
    + apply in_seq. pose proof (node_at_depth _ _ _ Hat).
      pose proof (node_size_pos n). lia.
    + apply in_at_depth. exists p. auto.
Qed.

(** ** Facts about strings *)

Lemma list_ascii_of_string_app (a b : string) :
  list_ascii_of_string (a +:+ b) =
  list_ascii_of_string a ++ list_ascii_of_string b.
Proof.
  induction a as [|c a IH]; [reflexivity|].
  simpl. now rewrite IH.
Qed.

Lemma list_ascii_of_string_inj (a b : string) :
  list_ascii_of_string a = list_ascii_of_string b -> a = b.
Proof.
  intros H. rewrite <- (string_of_list_ascii_of_string a),
    <- (string_of_list_ascii_of_string b). now rewrite H.
Qed.

Lemma startswith_spec (pre s : string) :
  startswith pre s = true <-> exists rest, s = pre +:+ rest.
Proof.
  revert s. induction pre as [|a pre IH]; intros s; cbn.
  - split; eauto.
  - destruct s as [|b s].
    + split; [discriminate|]. intros (rest & H). discriminate.
    + rewrite andb_true_iff, Ascii.eqb_eq, IH. split.
      * intros (-> & rest & ->). eauto.
      * intros (rest & H). inversion H; subst. eauto.
Qed.

Lemma endswith_spec (suf s : string) :
  endswith suf s = true <-> exists front, s = front +:+ suf.
Proof.
  induction s as [|c s IH]; cbn [endswith].
  - rewrite orb_false_r, String.eqb_eq. split.
    + intros <-. now exists EmptyString.
    + intros ([|? ?] & H); [exact H | discriminate].
  - rewrite orb_true_iff, String.eqb_eq, IH. split.
    + intros [<- | (front & ->)].
      * now exists EmptyString.
      * now exists (String c front).
    + intros ([|a front] & H).
      * left. exact H.
      * right. inversion H; subst. eauto.
Qed.

(** ** Facts about the pattern matcher *)

Lemma nullable_spec r : nullable r = true <-> lang r [].
Proof.
  split.
  - induction r; cbn; intros H; try discriminate.
    + constructor.
    + apply andb_true_iff in H as [H1 H2].
      change (@nil ascii) with (@nil ascii ++ []). constructor; auto.
    + apply orb_true_iff in H as [H|H].
      * apply lang_alt_l; auto.
      * apply lang_alt_r; auto.
    + constructor.
  - intros H. remember (@nil ascii) as s eqn:Es.
    induction H; cbn; auto; try discriminate.
    + apply app_eq_nil in Es as [-> ->]. rewrite IHlang1, IHlang2; auto.
    + rewrite IHlang; auto.
    + rewrite IHlang; auto. apply orb_true_r.
Qed.

Lemma deriv_sound c r s : lang (deriv c r) s -> lang r (c :: s).
Proof.
  revert s. induction r; cbn; intros s H.
  - inversion H.
  - inversion H.
  - destruct (p c) eqn:Hp; inversion H; subst. now constructor.
  - destruct (nullable r1) eqn:Hn.
    + inversion H as [| |? ? ? ? ? ?|? ? ? Hl|? ? ? Hr| |]; subst.
      * inversion Hl; subst.
        change (c :: s1 ++ s2) with ((c :: s1) ++ s2). constructor; auto.
      * change (c :: s) with ([] ++ c :: s). constructor; auto.
        now apply nullable_spec.
    + inversion H; subst.
      change (c :: s1 ++ s2) with ((c :: s1) ++ s2). constructor; auto.
  - inversion H; subst.
    + apply lang_alt_l; auto.
    + apply lang_alt_r; auto.
  - inversion H; subst.
    change (c :: s1 ++ s2) with ((c :: s1) ++ s2). constructor; auto.
Qed.

Lemma deriv_complete c r s : lang r (c :: s) -> lang (deriv c r) s.
Proof.
  intros H. remember (c :: s) as cs eqn:E. revert s E.
  induction H; intros z E; cbn; try discriminate.
  - inversion E; subst. rewrite H. constructor.
  - destruct s1 as [|a s1]; cbn in E.
    + subst s2. apply nullable_spec in H. rewrite H.
      apply lang_alt_r. auto.
    + inversion E; subst.
      destruct (nullable r1).
      * apply lang_alt_l. constructor; auto.
      * constructor; auto.
  - apply lang_alt_l; auto.
  - apply lang_alt_r; auto.
  - destruct s1 as [|a s1]; cbn in E.
    + apply (IHlang2 z E).
    + inversion E; subst. constructor; auto.
Qed.

Lemma matches_spec r s : matches r s = true <-> lang r s.
Proof.
  revert r. induction s as [|c s IH]; intros r; cbn.
  - apply nullable_spec.
  - rewrite IH. split; [apply deriv_sound | apply deriv_complete].
Qed.

Lemma lang_star_class p s :
  lang (Star (Class p)) s <-> Forall (fun c => p c = true) s.
Proof.
  split.
  - intros H. remember (Star (Class p)) as r eqn:Er.
    induction H; try discriminate; inversion Er; subst; auto.
    inversion H; subst. cbn. constructor; auto.
  - induction 1 as [|c s Hc _ IH].
    + constructor.
    + change (c :: s) with ([c] ++ s). constructor; auto. now constructor.
Qed.

Lemma lang_plus_class p s :
  lang (Plus (Class p)) s <-> s <> [] /\ Forall (fun c => p c = true) s.
Proof.
  unfold Plus. split.
  - intros H. inversion H as [| |? ? ? ? H1 H2| | | |]; subst.
    inversion H1; subst. apply lang_star_class in H2. cbn.
    split; [discriminate | constructor; auto].
  - intros [Hne Hall]. destruct s as [|c s]; [congruence|].
    inversion Hall; subst.
    change (c :: s) with ([c] ++ s). constructor.
    + now constructor.
    + now apply lang_star_class.
Qed.

(** A pattern closed by [$] matches what it describes, with or without a
    final line feed. *)
Lemma lang_dollar r s :
  lang (Cat r Dollar) s <-> lang r s \/ exists s', s = s' ++ [newline] /\ lang r s'.
Proof.
  unfold Dollar, Opt. split.
  - intros H. inversion H as [| |? ? ? ? H1 H2| | | |]; subst.
    inversion H2 as [| | |? ? ? Hl|? ? ? Hr| |]; subst.
    + inversion Hl; subst. right. exists s1. split; auto.
      unfold is_newline in *. f_equal. f_equal. now apply Ascii.eqb_eq.
    + inversion Hr; subst. left. now rewrite app_nil_r.
  - intros [H | (s' & -> & H)].
    + rewrite <- (app_nil_r s). constructor; auto. apply lang_alt_r. constructor.
    + constructor; auto. apply lang_alt_l. constructor.
      unfold is_newline. apply Ascii.eqb_refl.
Qed.

Lemma ends_with_newline_spec name :
  ends_with_newline name = true <->
  exists s', list_ascii_of_string name = s' ++ [newline].
Proof.
  unfold ends_with_newline. rewrite endswith_spec. split.
  - intros (front & ->). exists (list_ascii_of_string front).
    now rewrite list_ascii_of_string_app.
  - intros (s' & H). exists (string_of_list_ascii s').
    apply list_ascii_of_string_inj.
    now rewrite list_ascii_of_string_app, list_ascii_of_string_of_list_ascii.
Qed.

(** On a name that does not end in a line feed, [re.match] with a pattern
    [^r$] succeeds exactly when [r] describes the whole name. *)
Lemma re_match_spec r name :
  ends_with_newline name = false ->
  re_match r name = true <-> lang r (list_ascii_of_string name).
Proof.
  intros Hnl. unfold re_match. rewrite matches_spec, lang_dollar.
  split; [|auto]. intros [H | (s' & Hs & _)]; [exact H|].
  assert (ends_with_newline name = true) as Ht
    by (apply ends_with_newline_spec; eauto).
  congruence.
Qed.

(** ** The two naming patterns *)

Lemma lowercase_group_app g h :
  lowercase_group g -> lowercase_group h -> lowercase_group (g ++ h).
Proof.
  intros [Hg Hga] [_ Hha]. split.
  - destruct g; [congruence | discriminate].
  - apply Forall_app; auto.
Qed.

Lemma join_underscore_cons g h hs :
  join_underscore (g :: h :: hs) =
  g ++ underscore :: join_underscore (h :: hs).
Proof. reflexivity. Qed.

Lemma join_underscore_merge g h hs :
  join_underscore ((g ++ h) :: hs) = g ++ join_underscore (h :: hs).
Proof.
  destruct hs as [|k hs]; [reflexivity|].
  rewrite !join_underscore_cons. now rewrite <- app_assoc.
Qed.

(** One round of the starred group [[a-z]+_?]. *)
Lemma lang_group s :
  lang (Cat (Plus (Class lower)) (Opt (Class is_underscore))) s <->
  exists g, lowercase_group g /\ (s = g \/ s = g ++ [underscore]).
Proof.
  split.
  - intros H. inversion H as [| |? ? g u Hg Hu| | | |]; subst.
    apply lang_plus_class in Hg. exists g. split; [exact Hg|].
    inversion Hu as [| | |? ? ? Hl|? ? ? Hr| |]; subst.
    + inversion Hl; subst. right. f_equal. f_equal.
      unfold is_underscore in *. now apply Ascii.eqb_eq.
    + inversion Hr; subst. left. apply app_nil_r.
  - intros (g & Hg & [-> | ->]).
    + rewrite <- (app_nil_r g). constructor.
      * now apply lang_plus_class.
      * apply lang_alt_r. constructor.
    + constructor.
      * now apply lang_plus_class.
      * apply lang_alt_l. constructor. apply Ascii.eqb_refl.
Qed.

Lemma star_groups_then_group s g :
  lang (Star (Cat (Plus (Class lower)) (Opt (Class is_underscore)))) s ->
  lowercase_group g ->
  exists gs, gs <> [] /\ Forall lowercase_group gs /\
             s ++ g = join_underscore gs.
Proof.
  intros H Hg.
  remember (Star (Cat (Plus (Class lower)) (Opt (Class is_underscore))))
    as r eqn:Er.
  induction H as [| | | | | |r0 a b Ha _ Hb IH]; try discriminate.
  - exists [g]. split; [discriminate|]. split; [|reflexivity]. constructor; auto.
  - inversion Er; subst r0. destruct (IH eq_refl) as (gs & Hne & Hall & Hjoin).
    apply lang_group in Ha. destruct Ha as (g1 & Hg1 & Hcase).
    destruct gs as [|h hs]; [congruence|].
    rewrite <- app_assoc, Hjoin. inversion Hall; subst.
    destruct Hcase as [-> | ->].
    + exists ((g1 ++ h) :: hs). split; [discriminate|]. split.
      * constructor; auto. now apply lowercase_group_app.
      * now rewrite join_underscore_merge.
    + exists (g1 :: h :: hs). split; [discriminate|]. split.
      * constructor; auto.
      * rewrite join_underscore_cons. now rewrite <- app_assoc.
Qed.

Lemma groups_star_then_group gs :
  gs <> [] -> Forall lowercase_group gs ->
  exists s g,
    join_underscore gs = s ++ g /\
    lang (Star (Cat (Plus (Class lower)) (Opt (Class is_underscore)))) s /\
    lowercase_group g.
Proof.
  induction gs as [|g gs IH]; [congruence|]. intros _ Hall.
  inversion Hall as [|? ? Hg Hgs]; subst.
  destruct gs as [|h hs].
  - exists [], g. split; [reflexivity|]. split; [constructor | exact Hg].
  - destruct (IH ltac:(discriminate) Hgs) as (s & g' & Hjoin & Hs & Hg').
    exists ((g ++ [underscore]) ++ s), g'. split; [|split; [|exact Hg']].
    + rewrite join_underscore_cons, Hjoin. now rewrite <- !app_assoc.
    + constructor; auto. apply lang_group. eauto.
Qed.

(** [([a-z]+_?)*[a-z]+] describes the snake-case names. *)
Lemma function_name_pattern_spec name :
  lang function_name_pattern (list_ascii_of_string name) <-> snake_case name.
Proof.
  unfold function_name_pattern, snake_case. split.
  - intros H. remember (list_ascii_of_string name) as l eqn:El.
    inversion H as [| |? ? s g Hs Hg| | | |]; subst l.
    apply lang_plus_class in Hg.
    exact (star_groups_then_group s g Hs Hg).
  - intros (gs & Hne & Hall & ->).
    destruct (groups_star_then_group gs Hne Hall) as (s & g & -> & Hs & Hg).
    constructor; auto. now apply lang_plus_class.
Qed.

(** [[A-Z][A-Za-z0-9]*] describes the camel-case names. *)
Lemma class_name_pattern_spec name :
  lang class_name_pattern (list_ascii_of_string name) <-> camel_case name.
Proof.
  unfold class_name_pattern, camel_case. split.
  - intros H. remember (list_ascii_of_string name) as l eqn:El.
    inversion H as [| |? ? s1 s2 H1 H2| | | |]; subst l.
    inversion H1; subst. apply lang_star_class in H2.
    eexists _, _. split; [reflexivity|]. split; assumption.
  - intros (c & rest & -> & Hc & Hrest).
    change (c :: rest) with ([c] ++ rest). constructor.
    + now constructor.
    + now apply lang_star_class.
Qed.

(** What snake case excludes. *)
Lemma join_underscore_chars gs :
  Forall lowercase_group gs ->
  Forall (fun c => lower c = true \/ c = underscore) (join_underscore gs).
Proof.
  induction gs as [|g gs IH]; intros Hall; [constructor|].
  inversion Hall as [|? ? [_ Hg] Hgs]; subst.
  assert (Forall (fun c => lower c = true \/ c = underscore) g) as Hg'
    by (eapply Forall_impl; [exact Hg|]; cbn; auto).
  destruct gs as [|h hs]; [exact Hg'|].
  rewrite join_underscore_cons. apply Forall_app. split; auto.
Qed.

Lemma lower_not_digit c : lower c = true -> digit c = false.
Proof.
  unfold lower, digit, in_range. intros H.
  apply andb_true_iff in H as [H _]. apply Nat.leb_le in H.
  apply andb_false_iff. right. apply Nat.leb_gt.
  change (nat_of_ascii "a") with 97 in H.
  change (nat_of_ascii "9") with 57. lia.
Qed.

Lemma lowercase_group_no_underscore g :
  lowercase_group g -> ~ In underscore g.
Proof.
  intros [_ Hall] Hin. rewrite Forall_forall in Hall.
  apply list_elem_of_In in Hin. apply Hall in Hin. discriminate.
Qed.

Lemma join_underscore_head gs :
  gs <> [] -> Forall lowercase_group gs ->
  exists c rest, join_underscore gs = c :: rest /\ lower c = true.
Proof.
  destruct gs as [|g gs]; [congruence|]. intros _ Hall.
  inversion Hall as [|? ? [Hne Hg] _]; subst.
  destruct g as [|c g]; [congruence|]. inversion Hg; subst.
  destruct gs as [|h hs]; [exists c, g; auto|].
  rewrite join_underscore_cons. cbn. eauto.
Qed.

Lemma join_underscore_last gs :
  gs <> [] -> Forall lowercase_group gs ->
  exists front c, join_underscore gs = front ++ [c] /\ lower c = true.
Proof.
  induction gs as [|g gs IH]; [congruence|]. intros _ Hall.
  inversion Hall as [|? ? [Hne Hg] Hgs]; subst.
  destruct gs as [|h hs].
  - destruct (exists_last Hne) as (front & c & ->).
    exists front, c. split; [reflexivity|].
    apply Forall_app in Hg as [_ Hc]. now inversion Hc.
  - destruct (IH ltac:(discriminate) Hgs) as (front & c & Hjoin & Hc).
    exists (g ++ underscore :: front), c. split; [|exact Hc].
    rewrite join_underscore_cons, Hjoin. now rewrite <- app_assoc.
Qed.

Lemma join_underscore_no_double gs a b :
  Forall lowercase_group gs ->
  join_underscore gs <> a ++ underscore :: underscore :: b.
Proof.
  revert a. induction gs as [|g gs IH]; intros a Hall.
  - cbn. apply app_cons_not_nil.
  - inversion Hall as [|? ? Hg Hgs]; subst.
    pose proof (lowercase_group_no_underscore g Hg) as Hnu.
    destruct gs as [|h hs].
    + cbn. intros ->. apply Hnu, in_or_app. right. now left.
    + rewrite join_underscore_cons. intros E.
      destruct (join_underscore_head (h :: hs) ltac:(discriminate) Hgs)
        as (c & rest & Hj & Hc).
      assert (c <> underscore) as Hcu by (intros ->; discriminate).
      apply app_eq_app in E. destruct E as (l & [[-> E] | [-> E]]).
      * destruct l as [|x l]; cbn [app] in E.
        -- rewrite Hj in E. congruence.
        -- injection E as <- _. apply Hnu, in_or_app. right. now left.
      * destruct l as [|x l]; cbn [app] in E.
        -- rewrite Hj in E. congruence.
        -- injection E as _ E. exact (IH l Hgs E).
Qed.

(** A snake-case name has lowercase letters and underscores only, so no
    digit, and no leading, trailing or double underscore. *)
Lemma snake_case_shape name :
  snake_case name ->
  (forall c, In c (list_ascii_of_string name) ->
             (lower c = true \/ c = underscore) /\ digit c = false) /\
  (forall rest, list_ascii_of_string name <> underscore :: rest) /\
  (forall front, list_ascii_of_string name <> front ++ [underscore]) /\
  (forall a b,
      list_ascii_of_string name <> a ++ underscore :: underscore :: b).
Proof.
  intros (gs & Hne & Hall & ->). repeat apply conj.
  - intros c Hin. pose proof (join_underscore_chars gs Hall) as Hchars.
    rewrite Forall_forall in Hchars. apply list_elem_of_In in Hin.
    destruct (Hchars c Hin) as [Hl | ->].
    + split; [now left | now apply lower_not_digit].
    + split; [now right | reflexivity].
  - intros rest E.
    destruct (join_underscore_head gs Hne Hall) as (c & r & Hj & Hc).
    rewrite Hj in E. injection E as -> _. discriminate.
  - intros front E.
    destruct (join_underscore_last gs Hne Hall) as (f & c & Hj & Hc).
    rewrite Hj in E. apply app_inj_tail in E as [_ ->]. discriminate.
  - intros a b. now apply join_underscore_no_double.
Qed.

(** ** The loops as comprehensions *)

(** A loop that appends at most one item per element builds the list of
    those items, in order. *)
Lemma fold_left_append {A B : Type} (step : list B -> A -> list B)
    (f : A -> option B) (l : list A) (init : list B) :
  (forall acc x,
      step acc x = match f x with Some y => acc ++ [y] | None => acc end) ->
  fold_left step l init = init ++ omap f l.
Proof.
  intros Hstep. revert init. induction l as [|x l IH]; intros init; cbn.
  - now rewrite app_nil_r.
  - rewrite IH, Hstep. destruct (f x) as [y|]; [|reflexivity].
    now rewrite <- app_assoc.
Qed.

Lemma in_omap {A B : Type} (f : A -> option B) (l : list A) (y : B) :
  In y (omap f l) <-> exists x, In x l /\ f x = Some y.
Proof.
  rewrite <- list_elem_of_In, list_elem_of_omap.
  split; intros (x & Hx & Hf); exists x; split; auto;
    now apply list_elem_of_In.
Qed.

Lemma omap_ext_in {A B : Type} (f g : A -> option B) (l : list A) :
  (forall x, In x l -> f x = g x) -> omap f l = omap g l.
Proof.
  induction l as [|x l IH]; intros H; [reflexivity|]. cbn.
  rewrite (H x) by (now left). rewrite IH; [reflexivity|].
  intros y Hy. apply H. now right.
Qed.

Lemma omap_map_filter {A B : Type} (f : A -> option B) (g : A -> bool)
    (h : A -> B) (l : list A) :
  (forall x, f x = if g x then Some (h x) else None) ->
  omap f l = map h (List.filter g l).
Proof.
  intros H. induction l as [|x l IH]; [reflexivity|]. cbn.
  rewrite H. destruct (g x); cbn; now rewrite IH.
Qed.

Lemma omap_map {A B C : Type} (f : B -> option C) (g : A -> B) (l : list A) :
  omap f (map g l) = omap (fun x => f (g x)) l.
Proof.
  induction l as [|x l IH]; [reflexivity|]. cbn. now rewrite IH.
Qed.

Lemma get_functions_omap tree :
  get_functions tree = omap (function_of tree) (walk (root tree)).
Proof.
  unfold get_functions. apply omap_ext_in. intros pn _.
  unfold function_of. destruct (kind_of pn.2); try reflexivity.
  now destruct (isinstance_ClassDef _).
Qed.

Lemma get_docstrings_omap tree :
  get_docstrings tree = omap docstring_of (walk (root tree)).
Proof.
  unfold get_docstrings. rewrite (fold_left_append _ docstring_of); auto.
  intros acc pn. unfold docstring_of.
  destruct (kind_of pn.2); try reflexivity.
  now destruct (is_special_method name).
Qed.

Lemma get_type_annotation_issues_omap tree :
  get_type_annotation_issues tree =
  omap missing_annotation_of (walk (root tree)).
Proof.
  unfold get_type_annotation_issues.
  rewrite (fold_left_append _ missing_annotation_of); auto.
  intros acc pn. unfold missing_annotation_of.
  destruct (kind_of pn.2); try reflexivity.
  destruct (is_special_method name); [reflexivity|]. cbn zeta.
  destruct (forallb _ _); destruct (truthy returns); reflexivity.
Qed.

Lemma check_function_naming_omap tree :
  check_function_naming tree = omap bad_name_of (walk (root tree)).
Proof.
  unfold check_function_naming.
  rewrite (fold_left_append _ bad_name_of); auto.
  intros acc pn. unfold bad_name_of.
  destruct (kind_of pn.2); try reflexivity.
  destruct (is_special_method name); [reflexivity|].
  now destruct (re_match _ _).
Qed.

(** ** The attributes [add_parents] writes *)

Lemma node_at_app t p p' :
  node_at t (p ++ p') =
  match node_at t p with
  | Some n => node_at n p'
  | None => None
  end.
Proof.
  revert t. induction p as [|i p IH]; intros t; [reflexivity|].
  cbn. destruct (children t !! i) as [c|]; [apply IH | reflexivity].
Qed.

Lemma node_at_snoc t q i :
  node_at t (q ++ [i]) =
  match node_at t q with
  | Some n => children n !! i
  | None => None
  end.
Proof.
  rewrite node_at_app. destruct (node_at t q) as [n|]; [|reflexivity].
  cbn. now destruct (children n !! i).
Qed.

Lemma obj_of_inl p c q :
  obj_of (p, c) = inl q <-> is_singleton c = false /\ p = q.
Proof.
  unfold obj_of, is_singleton. cbn [fst snd].
  destruct (kind_of c);
    (split; [intros H; inversion H; auto
            | intros [H ->]; (reflexivity || discriminate)]).
Qed.

Lemma obj_of_inr p c class_name :
  obj_of (p, c) = inr class_name <-> kind_of c = Singleton class_name.
Proof.
  unfold obj_of. cbn [fst snd].
  destruct (kind_of c); split; try discriminate; intros H; inversion H;
    reflexivity.
Qed.

Lemma add_parents_assignments tree :
  parent (add_parents tree) =
  fold_left (fun attrs kv => <[kv.1 := kv.2]> attrs)
            (assignments (root tree)) (parent tree).
Proof.
  unfold add_parents, assignments. cbn [parent].
  generalize (parent tree) as attrs.
  induction (walk (root tree)) as [|pn l IH]; intros attrs; [reflexivity|].
  cbn [fold_left flat_map]. rewrite fold_left_app, IH. f_equal.
  generalize attrs.
  induction (child_nodes pn) as [|child cs IHc]; intros a; [reflexivity|].
  cbn. apply IHc.
Qed.

Lemma child_of_removelast t q p : child_of t q p -> q = removelast p.
Proof. intros (n & i & c & _ & _ & ->). now rewrite removelast_last. Qed.

Lemma child_of_valid t p n :
  node_at t p = Some n -> p <> [] -> child_of t (removelast p) p.
Proof.
  intros Hn Hne. destruct (exists_last Hne) as (q & i & ->).
  rewrite removelast_last. rewrite node_at_snoc in Hn.
  destruct (node_at t q) as [m|] eqn:Hq; [|discriminate].
  exists m, i, n. auto.
Qed.

Lemma child_of_node_at t q p :
  child_of t q p -> p <> [] /\ is_Some (node_at t p).
Proof.
  intros (n & i & c & Hn & Hi & ->). split.
  - intros H. now apply app_eq_nil in H as [_ H].
  - rewrite node_at_snoc, Hn. eauto.
Qed.

(** One assignment per node that is a child, to the object of the node. *)
Lemma in_assignments t k v :
  In (k, v) (assignments t) <->
  exists p c, child_of t v p /\ node_at t p = Some c /\ k = obj_of (p, c).
Proof.
  unfold assignments. rewrite in_flat_map. split.
  - intros ([q n] & Hwalk & Hin). apply in_walk in Hwalk.
    apply in_map_iff in Hin. destruct Hin as ([p c] & Heq & Hin).
    cbn [fst snd] in Heq. inversion Heq; subst.
    apply in_child_nodes in Hin. destruct Hin as (i & -> & Hi).
    cbn [fst snd] in Hi. exists (v ++ [i]), c. repeat apply conj.
    + exists n, i, c. auto.
    + now rewrite node_at_snoc, Hwalk.
    + reflexivity.
  - intros (p & c & (n & i & c' & Hn & Hi & ->) & Hc & ->).
    rewrite node_at_snoc, Hn, Hi in Hc. inversion Hc; subst c'.
    exists (v, n). split; [now apply in_walk|].
    apply in_map_iff. exists (v ++ [i], c). split; [reflexivity|].
    apply in_child_nodes. eauto.
Qed.

(** After a sequence of assignments, an attribute that was always assigned
    the same value holds that value, and one that was not assigned holds
    what it held before. *)
Lemma lookup_assignments (kvs : list (obj * path)) (attrs : gmap obj path)
    (k : obj) (v0 : path) :
  (forall v, In (k, v) kvs -> v = v0) ->
  fold_left (fun m kv => <[kv.1 := kv.2]> m) kvs attrs !! k =
  if bool_decide (k ∈ map fst kvs) then Some v0 else attrs !! k.
Proof.
  intros Hval. induction kvs as [|[k' v] kvs IH] using rev_ind.
  - cbn. rewrite bool_decide_eq_false_2; [reflexivity|]. apply not_elem_of_nil.
  - rewrite fold_left_app. cbn [fold_left fst snd].
    rewrite map_app. cbn [map fst].
    destruct (decide (k' = k)) as [Hk|Hk].
    + subst k'. rewrite lookup_insert_eq.
      assert (v = v0) as -> by (apply Hval, in_or_app; right; now left).
      rewrite bool_decide_eq_true_2; [reflexivity|].
      apply elem_of_app. right. apply list_elem_of_singleton. reflexivity.
    + rewrite lookup_insert_ne by exact Hk.
      etransitivity;
        [apply IH; intros; apply Hval, in_or_app; now left|].
      replace (bool_decide (k ∈ map fst kvs ++ [k']))
        with (bool_decide (k ∈ map fst kvs)); [reflexivity|].
      apply bool_decide_ext. rewrite elem_of_app, list_elem_of_singleton.
      split; [auto|]. intros [H|H]; [exact H | congruence].
Qed.

(** An attribute holds the value of the last assignment to it. *)
Lemma lookup_assignments_last (l1 l2 : list (obj * path))
    (attrs : gmap obj path) (k : obj) (v : path) :
  ~ In k (map fst l2) ->
  fold_left (fun m kv => <[kv.1 := kv.2]> m) (l1 ++ (k, v) :: l2) attrs !! k =
  Some v.
Proof.
  intros Hl2. rewrite fold_left_app. cbn [fold_left fst snd].
  rewrite (lookup_assignments l2 _ k v).
  - rewrite bool_decide_eq_false_2; [apply lookup_insert_eq|].
    intros H. apply Hl2. now apply list_elem_of_In.
  - intros v' Hin. exfalso. apply Hl2. apply in_map_iff.
    exists (k, v'). auto.
Qed.

(** The assignments of a run, on top of what was there before. *)
Lemma fold_left_insert_union (kvs : list (obj * path)) (m : gmap obj path) :
  fold_left (fun m kv => <[kv.1 := kv.2]> m) kvs m =
  fold_left (fun m kv => <[kv.1 := kv.2]> m) kvs ∅ ∪ m.
Proof.
  induction kvs as [|[k v] kvs IH] using rev_ind.
  - cbn. now rewrite (left_id_L ∅ (∪)).
  - rewrite !fold_left_app. cbn [fold_left fst snd].
    now rewrite IH, insert_union_l.
Qed.

(** The [parent] attribute, after [add_parents], of the object built for
    the position [p]. *)
Lemma lookup_add_parents tree p :
  parent (add_parents tree) !! inl p =
  match p, node_at (root tree) p with
  | _ :: _, Some n =>
      if is_singleton n then parent tree !! inl p else Some (removelast p)
  | _, _ => parent tree !! inl p
  end.
Proof.
  rewrite add_parents_assignments, (lookup_assignments _ _ _ (removelast p)).
  - case_bool_decide as Hd.
    + apply list_elem_of_In, in_map_iff in Hd.
      destruct Hd as ([k v] & Hk & Hin). cbn [fst] in Hk. subst k.
      apply in_assignments in Hin.
      destruct Hin as (p' & c & Hchild & Hc & Hobj).
      symmetry in Hobj. apply obj_of_inl in Hobj as [Hs ->].
      apply child_of_node_at in Hchild as [Hne _].
      destruct p as [|i p]; [congruence|]. now rewrite Hc, Hs.
    + destruct p as [|i p]; [reflexivity|].
      destruct (node_at (root tree) (i :: p)) as [n|] eqn:Hn; [|reflexivity].
      destruct (is_singleton n) eqn:Hs; [reflexivity|].
      exfalso. apply Hd. apply list_elem_of_In, in_map_iff.
      exists (inl (i :: p), removelast (i :: p)). split; [reflexivity|].
      apply in_assignments. exists (i :: p), n. repeat apply conj.
      * exact (child_of_valid _ _ _ Hn ltac:(discriminate)).
      * exact Hn.
      * symmetry. now apply obj_of_inl.
  - intros v Hin. apply in_assignments in Hin.
    destruct Hin as (p' & c & Hchild & _ & Hobj).
    symmetry in Hobj. apply obj_of_inl in Hobj as [_ ->].
    eapply child_of_removelast; eauto.
Qed.

Lemma root_add_parents tree : root (add_parents tree) = root tree.
Proof. reflexivity. Qed.

(** Running [add_parents] again repeats the assignments of the first run,
    in the same order: every attribute ends with the value it has. *)
Lemma add_parents_idempotent tree :
  add_parents (add_parents tree) = add_parents tree.
Proof.
  assert (parent (add_parents (add_parents tree)) = parent (add_parents tree))
    as Hparent.
  { rewrite (add_parents_assignments (add_parents tree)), root_add_parents.
    rewrite add_parents_assignments.
    rewrite (fold_left_insert_union _ (fold_left _ _ _)).
    rewrite (fold_left_insert_union _ (parent tree)).
    now rewrite (assoc_L (∪)), (idemp_L (∪)). }
  destruct (add_parents (add_parents tree)) as [r m] eqn:E.
  assert (r = root tree) as -> by
    (change r with (root (mk_ast r m)); now rewrite <- E).
  cbn in Hparent. subst m. reflexivity.
Qed.

(** After [add_parents] on a freshly parsed tree, [node.parent] is the
    parent node, for every node that is an object of its own. *)
Lemma getattr_parent_add_parents t p n :
  node_at t p = Some n -> is_singleton n = false ->
  getattr_parent (add_parents (parse_ast t)) (p, n) = parent_node t p.
Proof.
  intros Hn Hs. unfold getattr_parent, parent_node.
  rewrite (proj2 (obj_of_inl p n p) (conj Hs eq_refl)).
  rewrite lookup_add_parents, root_add_parents.
  change (root (parse_ast t)) with t.
  change (parent (parse_ast t)) with (∅ : gmap obj path).
  destruct p as [|i p]; [now rewrite lookup_empty|].
  now rewrite Hn, Hs.
Qed.

(** ** Trees without their async function declarations *)

(** Induction on a node, with the property at hand for all its children. *)
Lemma node_children_ind (P : node -> Prop) :
  (forall k cs, Forall P cs -> P (Node k cs)) -> forall n, P n.
Proof.
  intros H. fix IH 1. intros [k cs]. apply H.
  induction cs as [|c cs IHcs]; constructor; [apply IH | exact IHcs].
Qed.

Lemma node_size_erase_async n : node_size (erase_async n) = node_size n.
Proof.
  induction n as [k cs IH] using node_children_ind.
  cbn [erase_async node_size]. f_equal. f_equal. rewrite map_map.
  induction IH as [|c cs Hc _ IHcs]; [reflexivity|]. cbn. now rewrite Hc, IHcs.
Qed.

Lemma children_erase_async n :
  children (erase_async n) = map erase_async (children n).
Proof. now destruct n. Qed.

Lemma imap_map_erase_async (g : nat -> path) (cs : list node) :
  imap (fun i c => (g i, c)) (map erase_async cs) =
  map erase_async_at (imap (fun i c => (g i, c)) cs).
Proof.
  revert g. induction cs as [|c cs IH]; intros g; [reflexivity|].
  cbn. f_equal. exact (IH (fun i => g (S i))).
Qed.

Lemma child_nodes_erase_async pn :
  child_nodes (erase_async_at pn) = map erase_async_at (child_nodes pn).
Proof.
  unfold child_nodes, erase_async_at. cbn [fst snd].
  rewrite children_erase_async.
  apply (imap_map_erase_async (fun i => pn.1 ++ [i])).
Qed.

Lemma walk_queue_erase_async fuel q :
  walk_queue fuel (map erase_async_at q) =
  map erase_async_at (walk_queue fuel q).
Proof.
  revert q. induction fuel as [|fuel IH]; intros q; [reflexivity|].
  destruct q as [|pn q]; [reflexivity|].
  cbn [map walk_queue]. f_equal.
  now rewrite child_nodes_erase_async, <- map_app, IH.
Qed.

Lemma walk_erase_async t :
  walk (erase_async t) = map erase_async_at (walk t).
Proof.
  unfold walk. rewrite node_size_erase_async.
  exact (walk_queue_erase_async (node_size t) [([], t)]).
Qed.

Lemma node_at_erase_async t p :
  node_at (erase_async t) p = erase_async <$> node_at t p.
Proof.
  revert t. induction p as [|i p IH]; intros t; [reflexivity|].
  cbn [node_at]. rewrite children_erase_async.
  change (map erase_async (children t)) with (erase_async <$> children t).
  rewrite list_lookup_fmap.
  destruct (children t !! i) as [c|]; [apply IH | reflexivity].
Qed.

Lemma isinstance_ClassDef_erase_async (x : option node) :
  isinstance_ClassDef (erase_async <$> x) = isinstance_ClassDef x.
Proof. destruct x as [[[] cs]|]; reflexivity. Qed.

Lemma obj_of_erase_async pn : obj_of (erase_async_at pn) = obj_of pn.
Proof. destruct pn as [p [[] cs]]; reflexivity. Qed.

Lemma getattr_parent_erase_async tree pn :
  getattr_parent (erase_async_tree tree) (erase_async_at pn) =
  erase_async <$> getattr_parent tree pn.
Proof.
  unfold getattr_parent. rewrite obj_of_erase_async.
  unfold erase_async_tree. cbn [parent root].
  destruct (parent tree !! obj_of pn) as [q|]; [|reflexivity].
  apply node_at_erase_async.
Qed.

Lemma kind_of_erase_async n :
  kind_of (erase_async n) =
  match kind_of n with
  | AsyncFunctionDef _ _ _ _ => Other
  | k => k
  end.
Proof. destruct n as [[] cs]; reflexivity. Qed.

(** No async function declaration is left. *)
Lemma erase_async_no_async t p n :
  node_at (erase_async t) p = Some n -> is_AsyncFunctionDef n = false.
Proof.
  rewrite node_at_erase_async. destruct (node_at t p) as [m|]; [|discriminate].
  cbn. intros H. inversion H; subst. unfold is_AsyncFunctionDef.
  rewrite kind_of_erase_async. now destruct (kind_of m).
Qed.

(** Erasing changes no item an extractor takes from a node. *)
Lemma omap_walk_erase_async (f g : path * node -> option string) t :
  (forall pn, f (erase_async_at pn) = g pn) ->
  omap f (walk (erase_async t)) = omap g (walk t).
Proof.
  intros H. rewrite walk_erase_async, omap_map.
  apply omap_ext_in. intros pn _. apply H.
Qed.

Lemma filter_map_swap {A : Type} (g : A -> bool) (e : A -> A) (l : list A) :
  (forall x, g (e x) = g x) ->
  List.filter g (map e l) = map e (List.filter g l).
Proof.
  intros H. induction l as [|x l IH]; [reflexivity|]. cbn.
  rewrite H. destruct (g x); cbn; now rewrite IH.
Qed.

Lemma mapM_map_swap {A B : Type} (f : A -> option B) (e : A -> A)
    (l : list A) :
  (forall x, f (e x) = f x) -> mapM f (map e l) = mapM f l.
Proof.
  intros H. induction l as [|x l IH]; [reflexivity|]. cbn.
  now rewrite H, IH.
Qed.

Lemma get_imports_erase_async tree :
  get_imports (erase_async_tree tree) = get_imports tree.
Proof.
  unfold get_imports, erase_async_tree. cbn [root]. f_equal.
  rewrite walk_erase_async, filter_map_swap, mapM_map_swap; [reflexivity| |].
  - intros [p [[] cs]]; reflexivity.
  - intros [p [[] cs]]; reflexivity.
Qed.

(** ** Each node once *)

Lemma map_fst_imap (g : nat -> path) (cs : list node) :
  map fst (imap (fun i c => (g i, c)) cs) = map g (seq 0 (length cs)).
Proof.
  revert g. induction cs as [|c cs IH]; intros g; [reflexivity|].
  cbn. f_equal. rewrite <- seq_shift, map_map.
  exact (IH (fun i => g (S i))).
Qed.

Lemma child_nodes_lookup pn i x :
  child_nodes pn !! i = Some x -> x.1 = pn.1 ++ [i].
Proof.
  unfold child_nodes. rewrite list_lookup_imap.
  destruct (children pn.2 !! i) as [c|]; [|discriminate].
  cbn. intros H. now injection H as <-.
Qed.

Lemma branches_apart_child_nodes pn : branches_apart (child_nodes pn).
Proof.
  intros i j x y a b Hx Hy E.
  apply child_nodes_lookup in Hx, Hy. rewrite Hx, Hy, <- !app_assoc in E.
  apply app_inv_head in E. now injection E.
Qed.

Lemma branches_apart_tail x l : branches_apart (x :: l) -> branches_apart l.
Proof.
  intros H i j y z a b Hy Hz E.
  assert (S i = S j) as Hij by (eapply (H (S i) (S j)); eauto).
  now injection Hij.
Qed.

(** The positions found below nodes on different branches are different. *)
Lemma NoDup_flat_map_branches (f : path * node -> list (path * node)) l :
  branches_apart l ->
  (forall x, In x l -> NoDup (map fst (f x))) ->
  (forall x q, In x l -> In q (map fst (f x)) -> exists a, q = x.1 ++ a) ->
  NoDup (map fst (flat_map f l)).
Proof.
  induction l as [|x l IH]; intros Hapart Hnodup Hbelow; [constructor|].
  cbn [flat_map]. rewrite map_app. apply NoDup_app. repeat apply conj.
  - apply Hnodup. now left.
  - intros q Hq Hq'. apply list_elem_of_In in Hq, Hq'.
    destruct (Hbelow x q (or_introl eq_refl) Hq) as (a & ->).
    apply in_map_iff in Hq'. destruct Hq' as ([q' n] & Heq & Hin).
    cbn in Heq. subst q'. apply in_flat_map in Hin.
    destruct Hin as (y & Hy & Hin).
    destruct (Hbelow y (x.1 ++ a) (or_intror Hy)) as (b & E).
    { apply in_map_iff. now exists (x.1 ++ a, n). }
    apply list_elem_of_In, list_elem_of_lookup in Hy. destruct Hy as (j & Hj).
    assert (0 = S j) by (eapply (Hapart 0 (S j) x y a b); eauto).
    discriminate.
  - apply IH.
    + eapply branches_apart_tail; eauto.
    + intros y Hy. apply Hnodup. now right.
    + intros y q Hy. apply Hbelow. now right.
Qed.

Lemma at_depth_below d pn q :
  In q (map fst (at_depth d pn)) ->
  exists a, q = pn.1 ++ a /\ length a = d.
Proof.
  destruct pn as [pre t]. intros H. apply in_map_iff in H.
  destruct H as ([q' n] & Heq & Hin). cbn in Heq. subst q'.
  apply in_at_depth in Hin. destruct Hin as (p' & -> & Hlen & _). eauto.
Qed.

Lemma NoDup_at_depth d pn : NoDup (map fst (at_depth d pn)).
Proof.
  revert pn. induction d as [|d IH]; intros pn.
  - cbn. apply NoDup_singleton.
  - cbn [at_depth]. apply NoDup_flat_map_branches.
    + apply branches_apart_child_nodes.
    + intros x _. apply IH.
    + intros x q _ Hq. apply at_depth_below in Hq as (a & -> & _). eauto.
Qed.

Lemma NoDup_levels pn a n :
  NoDup (map fst (flat_map (fun d => at_depth d pn) (seq a n))).
Proof.
  revert a. induction n as [|n IH]; intros a; [constructor|].
  cbn [seq flat_map]. rewrite map_app. apply NoDup_app. repeat apply conj.
  - apply NoDup_at_depth.
  - intros q Hq Hq'. apply list_elem_of_In in Hq, Hq'.
    apply at_depth_below in Hq as (x & -> & Hx).
    apply in_map_iff in Hq'. destruct Hq' as ([q' m] & Heq & Hin).
    cbn in Heq. subst q'. apply in_flat_map in Hin.
    destruct Hin as (d & Hd & Hin). apply in_seq in Hd.
    assert (In (pn.1 ++ x) (map fst (at_depth d pn))) as Hq
      by (apply in_map_iff; now exists (pn.1 ++ x, m)).
    apply at_depth_below in Hq as (y & E & Hy).
    apply app_inv_head in E. subst y. lia.
  - apply IH.
Qed.

(** [ast.walk] yields no node object twice. *)
Lemma NoDup_walk t : NoDup (map fst (walk t)).
Proof. rewrite walk_level_order. apply NoDup_levels. Qed.

Lemma length_walk_queue fuel q :
  forest_size q <= fuel -> length (walk_queue fuel q) = forest_size q.
Proof.
  revert q. induction fuel as [|fuel IH]; intros q Hfuel.
  - destruct q as [|pn q]; [reflexivity|].
    pose proof (forest_size_child_nodes pn).
    change (forest_size (pn :: q)) with (node_size pn.2 + forest_size q) in Hfuel.
    lia.
  - destruct q as [|pn q]; [reflexivity|].
    pose proof (forest_size_child_nodes pn) as Hpn.
    change (forest_size (pn :: q)) with (node_size pn.2 + forest_size q)
      in Hfuel |- *.
    cbn [walk_queue length]. rewrite IH; rewrite forest_size_app; lia.
Qed.

Lemma length_walk t : length (walk t) = node_size t.
Proof.
  unfold walk. rewrite length_walk_queue; cbn; lia.
Qed.

Lemma at_depth_beyond d pn : node_size pn.2 <= d -> at_depth d pn = [].
Proof.
  intros Hd. destruct (at_depth d pn) as [|[q m] l] eqn:E; [reflexivity|].
  assert (In (q, m) (at_depth d pn)) as Hin by (rewrite E; now left).
  destruct pn as [pre t]. apply in_at_depth in Hin.
  destruct Hin as (p' & _ & Hlen & Hat). apply node_at_depth in Hat.
  pose proof (node_size_pos m). cbn in Hd. lia.
Qed.

Lemma flat_map_seq_shift {A : Type} (f : nat -> list A) m :
  flat_map f (seq 1 m) = flat_map (fun d => f (S d)) (seq 0 m).
Proof.
  rewrite <- seq_shift.
  induction (seq 0 m) as [|d l IH]; cbn; congruence.
Qed.

(** After the root, [ast.walk] yields the children of the nodes it yields,
    in the same order. *)
Lemma walk_children t :
  walk t = ([], t) :: flat_map child_nodes (walk t).
Proof.
  rewrite walk_level_order. unfold level_order.
  rewrite flat_map_flat_map.
  rewrite (flat_map_ext
             (fun d => flat_map child_nodes (at_depth d ([], t)))
             (fun d => at_depth (S d) ([], t)))
    by (intros d; apply at_depth_succ).
  pose proof (node_size_pos t) as Hpos.
  destruct (node_size t) as [|n] eqn:En; [lia|].
  change (seq 0 (S n)) with (0 :: seq 1 n) at 1.
  cbn [flat_map]. change (at_depth 0 (@nil nat, t)) with [(@nil nat, t)].
  cbn [app]. f_equal.
  rewrite flat_map_seq_shift, seq_S, flat_map_app. cbn [flat_map].
  rewrite (at_depth_beyond (S (0 + n)) (@nil nat, t)) by (cbn [snd]; lia).
  now rewrite !app_nil_r.
Qed.

(** Depth never decreases along [ast.walk]. *)
Lemma StronglySorted_levels pn a n :
  StronglySorted (fun x y : path * node => length x.1 <= length y.1)
    (flat_map (fun d => at_depth d pn) (seq a n)).
Proof.
  assert (forall d x, In x (at_depth d pn) ->
            length x.1 = length pn.1 + d) as Hlen.
  { intros d [q m] Hin.
    assert (In q (map fst (at_depth d pn))) as Hq
      by (apply in_map_iff; now exists (q, m)).
    apply at_depth_below in Hq as (y & -> & Hy).
    cbn. rewrite length_app. lia. }
  revert a. induction n as [|n IH]; intros a; [constructor|].
  cbn [seq flat_map].
  assert (forall l,
    (forall x, In x l -> length x.1 = length pn.1 + a) ->
    StronglySorted (fun x y : path * node => length x.1 <= length y.1)
      (l ++ flat_map (fun d => at_depth d pn) (seq (S a) n))) as Happ.
  { induction l as [|x l IHl]; intros Hl; [apply IH|].
    cbn [app]. constructor.
    - apply IHl. intros y Hy. apply Hl. now right.
    - apply Forall_forall. intros y Hy. apply list_elem_of_In in Hy.
      change (length x.1 <= length y.1).
      pose proof (Hl x (or_introl eq_refl)) as Hx.
      apply in_app_iff in Hy as [Hy | Hy].
      + pose proof (Hl y (or_intror Hy)). unfold path in *. lia.
      + apply in_flat_map in Hy. destruct Hy as (d & Hd & Hy).
        apply in_seq in Hd. pose proof (Hlen d y Hy). unfold path in *. lia. }
  apply Happ. intros x. apply Hlen.
Qed.

(** ** Pre-order and breadth-first order visit the same nodes *)

Lemma preorder_children p k cs :
  preorder p (Node k cs) =
  (p, Node k cs) ::
  flat_map (fun x => preorder x.1 x.2) (child_nodes (p, Node k cs)).
Proof.
  unfold child_nodes. cbn [preorder fst snd children]. f_equal.
  change (imap (fun i c => (p ++ [i], c)) cs)
    with (imap (fun i c => (p ++ [0 + i], c)) cs).
  generalize 0 as i.
  induction cs as [|c cs IH]; intros i; [reflexivity|].
  cbn [imap flat_map fst snd]. rewrite Nat.add_0_r. f_equal.
  rewrite IH. f_equal. apply imap_ext. intros j x _. cbn.
  now rewrite Nat.add_succ_r.
Qed.

Lemma in_preorder t : forall p q n,
  In (q, n) (preorder p t) <->
  exists p', q = p ++ p' /\ node_at t p' = Some n.
Proof.
  induction t as [k cs IH] using node_children_ind. intros p q n.
  rewrite preorder_children. cbn [In]. rewrite in_flat_map. split.
  - intros [Heq | ([q' c] & Hc & Hin)].
    + injection Heq as <- <-. exists []. now rewrite app_nil_r.
    + apply in_child_nodes in Hc. destruct Hc as (i & Hq' & Hi).
      cbn [fst snd children] in Hq', Hi, Hin. subst q'.
      rewrite Forall_lookup in IH. apply (IH i c Hi) in Hin.
      destruct Hin as (p' & -> & Hat). exists (i :: p'). split.
      * symmetry. apply (app_assoc p [i] p').
      * cbn [node_at children]. now rewrite Hi.
  - intros (p' & -> & Hat). destruct p' as [|i p'].
    + left. cbn in Hat. injection Hat as <-. now rewrite app_nil_r.
    + right. cbn [node_at children] in Hat.
      destruct (cs !! i) as [c|] eqn:Hi; [|discriminate].
      exists (p ++ [i], c). split.
      * apply in_child_nodes. eauto.
      * rewrite Forall_lookup in IH. apply (IH i c Hi).
        exists p'. split; [apply (app_assoc p [i] p') | exact Hat].
Qed.

Lemma NoDup_preorder t : forall p, NoDup (map fst (preorder p t)).
Proof.
  induction t as [k cs IH] using node_children_ind. intros p.
  rewrite preorder_children. cbn [map fst].
  assert (forall x q, In x (child_nodes (p, Node k cs)) ->
            In q (map fst (preorder x.1 x.2)) -> exists a, q = x.1 ++ a)
    as Hbelow.
  { intros [q' c] q _ Hq. apply in_map_iff in Hq.
    destruct Hq as ([q'' m] & Heq & Hin). cbn in Heq. subst q''.
    apply in_preorder in Hin. destruct Hin as (p' & -> & _). eauto. }
  apply NoDup_cons. split.
  - intros Hin. apply list_elem_of_In, in_map_iff in Hin.
    destruct Hin as ([q m] & Heq & Hin). cbn in Heq. subst q.
    apply in_flat_map in Hin. destruct Hin as (x & Hx & Hin).
    destruct (Hbelow x p Hx) as (a & E).
    { apply in_map_iff. now exists (p, m). }
    destruct x as [q' c]. apply in_child_nodes in Hx.
    destruct Hx as (i & Hq' & _). cbn [fst snd] in Hq', E. subst q'.
    apply (f_equal (@length nat)) in E. rewrite !length_app in E.
    cbn in E. lia.
  - apply NoDup_flat_map_branches.
    + apply branches_apart_child_nodes.
    + intros [q' c] Hx. apply in_child_nodes in Hx.
      destruct Hx as (i & _ & Hi). cbn [fst snd children] in Hi |- *.
      rewrite Forall_lookup in IH. apply (IH i c Hi).
    + exact Hbelow.
Qed.

(** [ast.walk] yields the nodes that pre-order yields, each once. *)
Lemma walk_preorder_Permutation t : Permutation (walk t) (preorder [] t).
Proof.
  apply NoDup_Permutation.
  - apply (NoDup_fmap_1 fst), NoDup_walk.
  - apply (NoDup_fmap_1 fst), NoDup_preorder.
  - intros [q n]. rewrite !list_elem_of_In, in_walk, in_preorder. split.
    + intros H. now exists q.
    + intros (p' & -> & H). exact H.
Qed.

Lemma omap_Permutation_compat {A B : Type} (f : A -> option B) l l' :
  Permutation l l' -> Permutation (omap f l) (omap f l').
Proof.
  induction 1 as [|x l l' _ IH|x y l|l l' l'' _ IH1 _ IH2]; cbn.
  - constructor.
  - destruct (f x); [now constructor | exact IH].
  - destruct (f x), (f y); try reflexivity. apply perm_swap.
  - now transitivity (omap f l').
Qed.

(** ** [sorted(set(...))] *)

Lemma string_lt_trans a b c : string_lt a b -> string_lt b c -> string_lt a c.
Proof.
  unfold string_lt. intros Hab Hbc.
  apply OrderedTypeEx.String_as_OT.cmp_lt in Hab, Hbc.
  apply OrderedTypeEx.String_as_OT.cmp_lt.
  eapply OrderedTypeEx.String_as_OT.lt_trans; eauto.
Qed.

Lemma string_lt_irrefl a : ~ string_lt a a.
Proof.
  unfold string_lt. intros H.
  apply OrderedTypeEx.String_as_OT.cmp_lt in H.
  apply OrderedTypeEx.String_as_OT.lt_not_eq in H. now apply H.
Qed.

Lemma compare_Gt_string_lt a b : String.compare a b = Gt -> string_lt b a.
Proof.
  unfold string_lt. intros H. rewrite String.compare_antisym, H. reflexivity.
Qed.

Lemma in_insert_sorted x l y :
  In y (insert_sorted x l) <-> y = x \/ In y l.
Proof.
  induction l as [|z l IH]; cbn.
  - intuition.
  - destruct (String.compare x z) eqn:Hc; cbn.
    + apply String.compare_eq_iff in Hc. subst z. intuition.
    + intuition.
    + rewrite IH. intuition.
Qed.

Lemma insert_sorted_HdRel x l z :
  string_lt z x -> HdRel string_lt z l ->
  HdRel string_lt z (insert_sorted x l).
Proof.
  intros Hzx Hz. destruct l as [|y l]; cbn.
  - now constructor.
  - destruct (String.compare x y); [exact Hz | now constructor|].
    inversion Hz; subst. now constructor.
Qed.

Lemma insert_sorted_Sorted x l :
  Sorted string_lt l -> Sorted string_lt (insert_sorted x l).
Proof.
  induction 1 as [|y l Hl IH Hy]; cbn.
  - repeat constructor.
  - destruct (String.compare x y) eqn:Hc.
    + now constructor.
    + constructor; [now constructor | now constructor].
    + constructor; [exact IH|].
      apply insert_sorted_HdRel; [|exact Hy].
      now apply compare_Gt_string_lt.
Qed.

Lemma sorted_set_Sorted xs : Sorted string_lt (sorted_set xs).
Proof.
  induction xs as [|x xs IH]; cbn; [constructor|].
  now apply insert_sorted_Sorted.
Qed.

Lemma in_sorted_set xs y : In y (sorted_set xs) <-> In y xs.
Proof.
  induction xs as [|x xs IH]; cbn; [reflexivity|].
  rewrite in_insert_sorted, IH. intuition.
Qed.

Lemma StronglySorted_string_lt_NoDup l :
  StronglySorted string_lt l -> List.NoDup l.
Proof.
  induction 1 as [|x l _ IH Hx]; constructor; [|exact IH].
  intros Hin. rewrite Forall_forall in Hx.
  apply list_elem_of_In in Hin. apply Hx in Hin.
  now apply string_lt_irrefl in Hin.
Qed.

(** ** The import statements of a tree *)

Lemma in_mapM_Some {A B : Type} (f : A -> option B) l k y :
  mapM f l = Some k -> In y k <-> exists x, In x l /\ f x = Some y.
Proof.
  intros H. apply mapM_Some in H.
  induction H as [|x z l k Hx _ IH]; cbn.
  - split; [tauto | intros (x & [] & _)].
  - rewrite IH. split.
    + intros [<- | (x' & Hin & Hf)]; eauto.
    + intros (x' & [<- | Hin] & Hf); [left; congruence | eauto].
Qed.

(** ** [re.match] on any string *)

(** A pattern [^r$] matches a string that [r] describes, and such a string
    followed by one line feed. *)
Lemma re_match_any r name :
  re_match r name = true <->
  lang r (list_ascii_of_string name) \/
  exists front,
    name = front +:+ String newline EmptyString /\
    lang r (list_ascii_of_string front).
Proof.
  unfold re_match. rewrite matches_spec, lang_dollar. split.
  - intros [H | (s' & Hs & H)]; [now left | right].
    exists (string_of_list_ascii s'). split.
    + apply list_ascii_of_string_inj.
      now rewrite list_ascii_of_string_app,
        list_ascii_of_string_of_list_ascii.
    + now rewrite list_ascii_of_string_of_list_ascii.
  - intros [H | (front & -> & H)]; [now left | right].
    exists (list_ascii_of_string front).
    now rewrite list_ascii_of_string_app.
Qed.

(** ** Objects met more than once *)

(** After the root, [ast.walk] yields the nodes below it. *)
Lemma tl_walk t : tl (walk t) = flat_map child_nodes (walk t).
Proof. exact (f_equal (@tl _) (walk_children t)). Qed.

Lemma in_tl_walk t p n :
  In (p, n) (tl (walk t)) <-> node_at t p = Some n /\ p <> [].
Proof.
  split.
  - intros Hin. split.
    + apply in_walk. rewrite walk_children, <- tl_walk. now right.
    + rewrite tl_walk in Hin. apply in_flat_map in Hin as (pn & _ & Hin).
      apply in_child_nodes in Hin as (i & -> & _).
      intros H. now apply app_eq_nil in H as [_ H].
  - intros [Hn Hne]. apply in_walk in Hn.
    rewrite walk_children, <- tl_walk in Hn.
    destruct Hn as [Heq | Hin]; [|exact Hin].
    inversion Heq; subst. congruence.
Qed.

(** One assignment per node the walk yields after the root: to the object
    of the node, of the node above its position. *)
Lemma assignments_walk t :
  assignments t = map (fun pn => (obj_of pn, removelast pn.1)) (tl (walk t)).
Proof.
  rewrite tl_walk. unfold assignments.
  induction (walk t) as [|pn l IH]; [reflexivity|].
  cbn [flat_map]. rewrite map_app, IH. f_equal.
  apply map_ext_in. intros [q c] Hin.
  apply in_child_nodes in Hin as (i & -> & _).
  cbn [fst snd]. now rewrite removelast_last.
Qed.



(** The [parent] attribute of a shared object after [add_parents]: the
    node above the position where the walk met it last. *)
Lemma lookup_add_parents_singleton tree class_name l1 p n l2 :
  tl (walk (root tree)) = l1 ++ (p, n) :: l2 ->
  kind_of n = Singleton class_name ->
  (forall pn, In pn l2 -> kind_of pn.2 <> Singleton class_name) ->
  parent (add_parents tree) !! inr class_name = Some (removelast p).
Proof.
  intros Hw Hn Hl2.
  rewrite add_parents_assignments, assignments_walk, Hw, map_app.
  cbn [map fst]. rewrite (proj2 (obj_of_inr p n class_name) Hn).
  apply lookup_assignments_last.
  rewrite map_map. intros Hin. apply in_map_iff in Hin as ([q c] & Hobj & Hin).
  cbn [fst] in Hobj. apply obj_of_inr in Hobj. exact (Hl2 _ Hin Hobj).
Qed.

Lemma lookup_add_parents_no_singleton tree class_name :
  (forall pn, In pn (tl (walk (root tree))) ->
              kind_of pn.2 <> Singleton class_name) ->
  parent (add_parents tree) !! inr class_name =
  parent tree !! inr class_name.
Proof.
  intros Hnone.
  assert (~ In (inr class_name) (map fst (assignments (root tree)))) as Hkey.
  { rewrite assignments_walk, map_map. intros Hin.
    apply in_map_iff in Hin as ([q c] & Hobj & Hin).
    cbn [fst] in Hobj. apply obj_of_inr in Hobj. exact (Hnone _ Hin Hobj). }
  rewrite add_parents_assignments, (lookup_assignments _ _ _ []).
  - rewrite bool_decide_eq_false_2; [reflexivity|].
    intros H. apply Hkey. now apply list_elem_of_In.
  - intros v Hin. exfalso. apply Hkey. apply in_map_iff.
    exists (inr class_name, v). auto.
Qed.

(** [isinstance(x, ast.ClassDef)] in terms of the class of the node. *)
Lemma isinstance_ClassDef_spec (x : option node) :
  isinstance_ClassDef x =
  match x with
  | Some n => is_ClassDef n
  | None => false
  end.
Proof. destruct x as [[[] cs]|]; reflexivity. Qed.

(** The nodes that are objects of their own are assigned to once. *)
Lemma NoDup_own_objects (l : list (path * node)) :
  NoDup (map fst l) -> NoDup (own_objects (map obj_of l)).
Proof.
  induction l as [|[p n] l IH]; intros Hnd; [constructor|].
  cbn [map fst] in Hnd. apply NoDup_cons in Hnd as [Hp Hnd].
  unfold own_objects. cbn [map omap].
  destruct (obj_of (p, n)) as [q|c] eqn:Hobj; [|now apply IH].
  apply obj_of_inl in Hobj as [_ <-]. cbn. apply NoDup_cons. split.
  - intros Hin. apply Hp. apply list_elem_of_In in Hin.
    apply in_omap in Hin as (o & Hin & Ho).
    destruct o as [q|c]; [|discriminate]. inversion Ho; subst q.
    apply in_map_iff in Hin as ([q c] & Hobj & Hin).
    apply obj_of_inl in Hobj as [_ ->].
    apply list_elem_of_In, in_map_iff. exists (p, c). auto.
  - now apply IH.
Qed.

(** * The properties *)

(** ** Annotation completeness *)

(** What [get_type_annotation_issues] does report: the non-special
    declarations with an unannotated item in [args.args] or without a
    return annotation, once each. *)
Lemma get_type_annotation_issues_spec tree :
  get_type_annotation_issues tree =
  map (fun pn => decl_name pn.2)
      (List.filter
         (fun pn =>
            match kind_of pn.2 with
            | FunctionDef name fargs returns _ =>
                negb (is_special_method name) &&
                (negb (forallb (fun a => truthy (annotation a)) (args fargs))
                 || negb (truthy returns))
            | _ => false
            end)
         (walk (root tree))).
Proof.
  rewrite get_type_annotation_issues_omap. apply omap_map_filter.
  intros [p [k cs]]. unfold missing_annotation_of, decl_name. cbn [snd kind_of].
  destruct k; try reflexivity.
  destruct (is_special_method name); [reflexivity|].
  destruct (forallb _ _); destruct (truthy returns); reflexivity.
Qed.

(** C1, at the input [def f( *, x) -> int: return x]: the declaration is not
    a special method and its keyword-only parameter [x] lacks a declared
    type, yet [get_type_annotation_issues] returns the empty list, on the
    parsed tree and on the annotated one. *)
Theorem C1_keyword_only_parameter_not_flagged :
  is_special_method "f" = false /\
  lacks_annotation keyword_only_args (Some "int") = true /\
  get_type_annotation_issues (parse_ast keyword_only_module) = [] /\
  get_type_annotation_issues (add_parents (parse_ast keyword_only_module)) = [].
Proof. repeat split; vm_compute; reflexivity. Qed.

(** ** Documentation strings *)

Lemma docstring_of_spec pn :
  docstring_of pn =
  if is_documented_decl pn then Some (colon_newline_entry pn.2) else None.
Proof.
  destruct pn as [p [k cs]].
  unfold docstring_of, is_documented_decl, colon_newline_entry, decl_name,
    decl_docstring, docstring_entry, docstring_found, docstring_not_found.
  cbn [snd kind_of]. destruct k; try reflexivity.
  - destruct docstring as [[|c text]|]; reflexivity.
  - destruct (is_special_method name); [reflexivity|].
    destruct docstring as [[|c text]|]; reflexivity.
Qed.

(** C4, as stated, fails on [documented_module]: the entry of [f], whose
    documentation string is [hi], has a line feed after the colon where
    the claim has a space, and the class [K], whose documentation string is
    empty, is reported as having none. *)
Lemma C4_counterexample :
  get_docstrings (parse_ast documented_module) =
    [String "f" (String ":" (String newline "hi"));
     "K: DocString not found."] /\
  map (fun pn => colon_space_entry pn.2)
      (List.filter is_documented_decl (walk documented_module)) =
    ["f: hi"; "K: "] /\
  get_docstrings (parse_ast documented_module) <>
  map (fun pn => colon_space_entry pn.2)
      (List.filter is_documented_decl (walk documented_module)).
Proof. repeat split; vm_compute; congruence. Qed.

(** C4, amended: [get_docstrings] emits exactly one entry for every class
    declaration and every non-special function declaration that [ast.walk]
    yields, in that order; the entry is the name, a colon, a line feed and
    the documentation text when that text is not empty, and
    "<name>: DocString not found." otherwise. *)
Theorem C4_get_docstrings_entries tree :
  get_docstrings tree =
  map (fun pn => colon_newline_entry pn.2)
      (List.filter is_documented_decl (walk (root tree))).
Proof.
  rewrite get_docstrings_omap. apply omap_map_filter, docstring_of_spec.
Qed.

(** ** Discovery order *)

(** C5, as stated, fails on [nested_classes_module]: [get_classes] returns
    the nested class [B] after its parent's sibling [C], pre-order has it
    before. *)
Lemma C5_counterexample :
  get_classes (parse_ast nested_classes_module) = ["A"; "C"; "B"] /\
  omap class_name_of (preorder [] nested_classes_module) = ["A"; "B"; "C"] /\
  get_classes (parse_ast nested_classes_module) <>
  omap class_name_of (preorder [] nested_classes_module).
Proof. repeat split; vm_compute; congruence. Qed.

(** C5, amended: [get_classes] returns the class names, and
    [get_docstrings] its entries, in breadth-first order: the declarations
    at depth [d], from left to right, come before those at depth [d+1]. *)
Theorem C5_breadth_first_order tree :
  get_classes tree = omap class_name_of (level_order (root tree)) /\
  get_docstrings tree = omap docstring_of (level_order (root tree)).
Proof.
  split.
  - unfold get_classes. now rewrite walk_level_order.
  - now rewrite get_docstrings_omap, walk_level_order.
Qed.

(** ** Free functions and methods *)

Lemma filter_partition {A : Type} (f g h : A -> bool) (l : list A) :
  (forall x, In x l -> f x = g x || h x) ->
  (forall x, In x l -> g x && h x = false) ->
  Permutation (List.filter f l) (List.filter g l ++ List.filter h l).
Proof.
  induction l as [|x l IH]; intros Hor Hdisj; [constructor|].
  assert (Permutation (List.filter f l) (List.filter g l ++ List.filter h l))
    as IH' by (apply IH; intros; [apply Hor | apply Hdisj]; now right).
  pose proof (Hor x (or_introl eq_refl)) as Hx.
  pose proof (Hdisj x (or_introl eq_refl)) as Hd.
  cbn [List.filter]. destruct (g x), (h x); cbn in Hx, Hd; try discriminate;
    rewrite Hx.
  - cbn. now constructor.
  - now apply Permutation_cons_app.
  - exact IH'.
Qed.

(** C6: on the annotated tree of any file, [get_functions] collects the
    names of exactly the function declarations whose parent node is not a
    class declaration; the [parent] attribute it consults on a function
    declaration is the parent node of the declaration; and the free
    functions and the methods partition the function declarations of the
    tree. *)
Theorem C6_free_functions_and_methods (t : node) :
  get_functions (add_parents (parse_ast t)) =
    map (fun pn => decl_name pn.2) (List.filter (is_free_function t) (walk t))
  /\ (forall p n, node_at t p = Some n -> is_FunctionDef n = true ->
        getattr_parent (add_parents (parse_ast t)) (p, n) = parent_node t p)
  /\ (forall pn, is_FunctionDef pn.2 = true ->
        (is_free_function t pn = true <-> parent_is_class t pn.1 = false) /\
        (is_method t pn = true <-> parent_is_class t pn.1 = true))
  /\ Permutation
       (List.filter (fun pn => is_FunctionDef pn.2) (walk t))
       (List.filter (is_free_function t) (walk t) ++
        List.filter (is_method t) (walk t))
  /\ (forall pn, is_free_function t pn && is_method t pn = false).
Proof.
  assert (forall p n, node_at t p = Some n -> is_FunctionDef n = true ->
            getattr_parent (add_parents (parse_ast t)) (p, n) =
            parent_node t p) as Hparent.
  { intros p n Hn Hf. apply getattr_parent_add_parents; [exact Hn|].
    unfold is_FunctionDef, is_singleton in *.
    now destruct (kind_of n). }
  repeat apply conj.
  - rewrite get_functions_omap, root_add_parents.
    change (root (parse_ast t)) with t.
    rewrite (omap_ext_in _
      (fun pn => if is_free_function t pn then Some (decl_name pn.2)
                 else None)).
    + now apply omap_map_filter.
    + intros [p n] Hin. apply in_walk in Hin.
      unfold function_of, is_free_function, parent_is_class.
      cbn [fst snd].
      destruct (is_FunctionDef n) eqn:Hf.
      * rewrite (Hparent p n Hin Hf), isinstance_ClassDef_spec.
        unfold is_FunctionDef, decl_name in *.
        destruct (kind_of n); try discriminate.
        now destruct (parent_node t p) as [m|]; [destruct (is_ClassDef m)|].
      * unfold is_FunctionDef in Hf. now destruct (kind_of n).
  - exact Hparent.
  - intros pn Hf. unfold is_free_function, is_method. rewrite Hf. cbn.
    split; [|reflexivity]. apply negb_true_iff.
  - apply filter_partition; intros pn _; unfold is_free_function, is_method;
      destruct (is_FunctionDef pn.2), (parent_is_class _ _); reflexivity.
  - intros pn. unfold is_free_function, is_method.
    destruct (is_FunctionDef pn.2), (parent_is_class _ _); reflexivity.
Qed.

(** ** Special methods *)

Lemma special_method_not_in_omap (f : path * node -> option string) l name :
  (forall pn y, f pn = Some y -> is_special_method y = false) ->
  is_special_method name = true -> ~ In name (omap f l).
Proof.
  intros Hf Hs Hin. apply in_omap in Hin. destruct Hin as (pn & _ & Hpn).
  apply Hf in Hpn. congruence.
Qed.

(** C7: a name is a special method exactly when it starts and ends with
    two underscores. A function declaration with such a name, whatever its
    parent, adds nothing to the bad names, to the missing annotations or to
    the docstring entries -- its name is in neither of the two lists of
    names -- and its name is in the list of special methods. *)
Theorem C7_special_methods :
  (forall name,
      is_special_method name = true <->
      (exists rest, name = "__" +:+ rest) /\
      (exists front, name = front +:+ "__")) /\
  (forall tree p name fargs returns doc cs,
      In (p, Node (FunctionDef name fargs returns doc) cs) (walk (root tree)) ->
      is_special_method name = true ->
      ~ In name (check_function_naming tree) /\
      ~ In name (get_type_annotation_issues tree) /\
      get_docstrings tree = omap docstring_of (walk (root tree)) /\
      docstring_of (p, Node (FunctionDef name fargs returns doc) cs) = None /\
      In name (get_special_methods tree)).
Proof.
  split.
  - intros name. unfold is_special_method.
    now rewrite andb_true_iff, startswith_spec, endswith_spec.
  - intros tree p name fargs returns doc cs Hin Hs. repeat apply conj.
    + rewrite check_function_naming_omap.
      apply special_method_not_in_omap; [|exact Hs].
      intros [q [k ks]] y. unfold bad_name_of. cbn [snd kind_of].
      destruct k; try discriminate.
      destruct (is_special_method name0) eqn:E; [discriminate|].
      destruct (re_match _ _); [discriminate|]. congruence.
    + rewrite get_type_annotation_issues_omap.
      apply special_method_not_in_omap; [|exact Hs].
      intros [q [k ks]] y. unfold missing_annotation_of. cbn [snd kind_of].
      destruct k; try discriminate.
      destruct (is_special_method name0) eqn:E; [discriminate|].
      destruct (_ && _); [discriminate|]. congruence.
    + apply get_docstrings_omap.
    + unfold docstring_of. cbn [snd kind_of]. now rewrite Hs.
    + unfold get_special_methods. apply in_omap. eexists. split; [exact Hin|].
      cbn [snd kind_of]. now rewrite Hs.
Qed.

(** C7 at [__init__] of [foo_module], a method of the class [Foo]. *)
Lemma C7_special_methods_witness :
  In "__init__" (get_special_methods (add_parents (parse_ast foo_module))).
Proof.
  refine (proj2 (proj2 (proj2 (proj2
    (proj2 C7_special_methods (add_parents (parse_ast foo_module)) [0; 0]
       "__init__" self_arguments None None [Node Other [leaf]; leaf] _ _))))).
  - vm_compute. tauto.
  - reflexivity.
Defined.

(** ** Parent references *)



(** ** Running [add_parents] again *)

(** C9: a second [add_parents] changes the output of no extractor. *)
Theorem C9_add_parents_again (t : node) :
  get_imports (add_parents (add_parents (parse_ast t))) =
    get_imports (add_parents (parse_ast t)) /\
  get_classes (add_parents (add_parents (parse_ast t))) =
    get_classes (add_parents (parse_ast t)) /\
  get_functions (add_parents (add_parents (parse_ast t))) =
    get_functions (add_parents (parse_ast t)) /\
  get_docstrings (add_parents (add_parents (parse_ast t))) =
    get_docstrings (add_parents (parse_ast t)) /\
  get_type_annotation_issues (add_parents (add_parents (parse_ast t))) =
    get_type_annotation_issues (add_parents (parse_ast t)) /\
  check_function_naming (add_parents (add_parents (parse_ast t))) =
    check_function_naming (add_parents (parse_ast t)) /\
  get_special_methods (add_parents (add_parents (parse_ast t))) =
    get_special_methods (add_parents (parse_ast t)).
Proof. rewrite add_parents_idempotent. repeat split. Qed.

(** ** Async function declarations *)

(** C10: every extractor returns what it returns on the tree in which the
    async function declarations are nodes of no particular class, a tree
    without any async function declaration; and every name in the lists of
    free functions, special methods, missing annotations and bad names, as
    every docstring entry, comes from a class or a plain function
    declaration. *)
Theorem C10_async_functions_invisible (tree : ast) :
  (forall p n, node_at (root (erase_async_tree tree)) p = Some n ->
               is_AsyncFunctionDef n = false) /\
  get_imports (erase_async_tree tree) = get_imports tree /\
  get_classes (erase_async_tree tree) = get_classes tree /\
  get_functions (erase_async_tree tree) = get_functions tree /\
  get_special_methods (erase_async_tree tree) = get_special_methods tree /\
  get_docstrings (erase_async_tree tree) = get_docstrings tree /\
  get_type_annotation_issues (erase_async_tree tree) =
    get_type_annotation_issues tree /\
  check_function_naming (erase_async_tree tree) = check_function_naming tree /\
  (forall x,
      In x (get_functions tree ++ get_special_methods tree ++
            get_type_annotation_issues tree ++ check_function_naming tree) ->
      exists p n, node_at (root tree) p = Some n /\
                  is_FunctionDef n = true /\ decl_name n = x) /\
  (forall e, In e (get_docstrings tree) ->
      exists p n, node_at (root tree) p = Some n /\
                  (is_FunctionDef n = true \/ is_ClassDef n = true) /\
                  e = colon_newline_entry n).
Proof.
  repeat apply conj.
  - intros p n. apply erase_async_no_async.
  - apply get_imports_erase_async.
  - unfold get_classes, erase_async_tree. cbn [root].
    apply omap_walk_erase_async. intros [p [[] cs]]; reflexivity.
  - rewrite !get_functions_omap. unfold erase_async_tree at 2. cbn [root].
    apply omap_walk_erase_async. intros [p n]. unfold function_of.
    rewrite (getattr_parent_erase_async tree (p, n)),
      isinstance_ClassDef_erase_async.
    unfold erase_async_at. cbn [fst snd].
    destruct n as [[] cs]; reflexivity.
  - unfold get_special_methods, erase_async_tree. cbn [root].
    apply omap_walk_erase_async. intros [p [[] cs]]; reflexivity.
  - rewrite !get_docstrings_omap. unfold erase_async_tree. cbn [root].
    apply omap_walk_erase_async. intros [p [[] cs]]; reflexivity.
  - rewrite !get_type_annotation_issues_omap.
    unfold erase_async_tree. cbn [root].
    apply omap_walk_erase_async. intros [p [[] cs]]; reflexivity.
  - rewrite !check_function_naming_omap. unfold erase_async_tree. cbn [root].
    apply omap_walk_erase_async. intros [p [[] cs]]; reflexivity.
  - intros x. rewrite get_functions_omap, get_type_annotation_issues_omap,
      check_function_naming_omap. unfold get_special_methods.
    rewrite !in_app_iff, !in_omap.
    intros [H | [H | [H | H]]]; destruct H as ([p [k cs]] & Hin & Hf);
      apply in_walk in Hin; exists p, (Node k cs);
      (split; [exact Hin|]);
      unfold function_of, missing_annotation_of,
        bad_name_of, is_FunctionDef, decl_name in *;
      cbn [fst snd kind_of] in *; destruct k; try discriminate;
      (split; [reflexivity|]).
    + destruct (isinstance_ClassDef _); [discriminate | congruence].
    + destruct (is_special_method name); [congruence | discriminate].
    + destruct (is_special_method name); [discriminate|].
      destruct (_ && _); [discriminate | congruence].
    + destruct (is_special_method name); [discriminate|].
      destruct (re_match _ _); [discriminate | congruence].
  - intros e. rewrite get_docstrings_omap, in_omap.
    intros ([p n] & Hin & Hf). apply in_walk in Hin.
    exists p, n. split; [exact Hin|].
    rewrite docstring_of_spec in Hf.
    destruct (is_documented_decl (p, n)) eqn:Hd; [|discriminate].
    split; [|cbn in Hf; congruence].
    unfold is_documented_decl, is_FunctionDef, is_ClassDef in *.
    cbn [snd] in Hd. destruct (kind_of n); try discriminate; auto.
Qed.

(** ** Naming conventions *)

Lemma re_match_function_name name :
  ends_with_newline name = false ->
  re_match function_name_pattern name = true <-> snake_case name.
Proof.
  intros H. now rewrite re_match_spec, function_name_pattern_spec.
Qed.

Lemma re_match_class_name name :
  ends_with_newline name = false ->
  re_match class_name_pattern name = true <-> camel_case name.
Proof.
  intros H. now rewrite re_match_spec, class_name_pattern_spec.
Qed.

Lemma bad_name_of_spec pn name :
  bad_name_of pn = Some name <->
  is_FunctionDef pn.2 = true /\ decl_name pn.2 = name /\
  is_special_method name = false /\
  re_match function_name_pattern name = false.
Proof.
  destruct pn as [p [k cs]].
  unfold bad_name_of, is_FunctionDef, decl_name. cbn [snd kind_of].
  destruct k; try (split; [discriminate | intros [? _]; discriminate]).
  destruct (is_special_method name0) eqn:Hs.
  - split; [discriminate|]. intros (_ & <- & Hs' & _). congruence.
  - destruct (re_match function_name_pattern name0) eqn:Hm.
    + split; [discriminate|]. intros (_ & <- & _ & Hm'). congruence.
    + split.
      * intros H. injection H as <-. auto.
      * intros (_ & <- & _). reflexivity.
Qed.

(** C2: for a name that does not end in a line feed, as no identifier
    does, [check_function_naming] reports it exactly when a function
    declaration of the tree bears it, it is not a special method and it is
    not in snake case. A snake-case name has no digit and no leading,
    trailing or double underscore. [do_thing] is not reported, and is in
    snake case;
    [DoThing], [do__thing], [_do] and [do1] are reported, and are not. *)
Theorem C2_check_function_naming :
  (forall tree name,
      ends_with_newline name = false ->
      (In name (check_function_naming tree) <->
       (exists p n, node_at (root tree) p = Some n /\
                    is_FunctionDef n = true /\ decl_name n = name) /\
       is_special_method name = false /\
       ~ snake_case name)) /\
  (forall name,
      snake_case name ->
      (forall c, In c (list_ascii_of_string name) ->
                 (lower c = true \/ c = underscore) /\ digit c = false) /\
      (forall rest, list_ascii_of_string name <> underscore :: rest) /\
      (forall front, list_ascii_of_string name <> front ++ [underscore]) /\
      (forall a b,
          list_ascii_of_string name <>
          a ++ underscore :: underscore :: b)) /\
  check_function_naming (parse_ast function_names_module) =
    ["DoThing"; "do__thing"; "_do"; "do1"] /\
  snake_case "do_thing" /\
  ~ snake_case "DoThing" /\ ~ snake_case "do__thing" /\
  ~ snake_case "_do" /\ ~ snake_case "do1".
Proof.
  assert (forall name,
    ends_with_newline name = false ->
    re_match function_name_pattern name = false -> ~ snake_case name) as Hno.
  { intros name Hnl Hm Hs. apply re_match_function_name in Hs; congruence. }
  repeat apply conj.
  - intros tree name Hnl. rewrite check_function_naming_omap, in_omap. split.
    + intros ([p n] & Hin & Hbad). apply in_walk in Hin.
      apply bad_name_of_spec in Hbad. cbn [snd] in Hbad.
      destruct Hbad as (Hf & Hname & Hs & Hm). eauto 10.
    + intros ((p & n & Hn & Hf & Hname) & Hs & Hsnake).
      exists (p, n). split; [now apply in_walk|].
      apply bad_name_of_spec. cbn [snd]. repeat split; auto.
      destruct (re_match function_name_pattern name) eqn:Hm; [|reflexivity].
      exfalso. apply Hsnake. now apply re_match_function_name.
  - apply snake_case_shape.
  - vm_compute. reflexivity.
  - apply re_match_function_name; reflexivity.
  - apply Hno; reflexivity.
  - apply Hno; reflexivity.
  - apply Hno; reflexivity.
  - apply Hno; reflexivity.
Qed.

(** C2 at the name [do__thing] of [function_names_module]. *)
Lemma C2_check_function_naming_witness :
  ends_with_newline "do__thing" = false /\
  (In "do__thing"
      (check_function_naming (parse_ast function_names_module)) <->
   (exists p n, node_at function_names_module p = Some n /\
                is_FunctionDef n = true /\ decl_name n = "do__thing") /\
   is_special_method "do__thing" = false /\
   ~ snake_case "do__thing").
Proof.
  split; [reflexivity|].
  exact (proj1 C2_check_function_naming
           (parse_ast function_names_module) "do__thing" eq_refl).
Defined.

Lemma upper_not_digit c : upper c = true -> digit c = false.
Proof.
  unfold upper, digit, in_range. intros H.
  apply andb_true_iff in H as [H _]. apply Nat.leb_le in H.
  apply andb_false_iff. right. apply Nat.leb_gt.
  change (nat_of_ascii "A") with 65 in H.
  change (nat_of_ascii "9") with 57. lia.
Qed.

(** What the class pattern accepts starts with an uppercase letter and has
    no underscore, with or without a final line feed. *)
Lemma re_match_class_name_chars name :
  re_match class_name_pattern name = true ->
  ~ In underscore (list_ascii_of_string name) /\
  forall c rest, list_ascii_of_string name = c :: rest -> digit c = false.
Proof.
  unfold re_match. rewrite matches_spec, lang_dollar.
  assert (forall s, lang class_name_pattern s ->
            exists c rest, s = c :: rest /\ upper c = true /\
                           Forall (fun x => alnum x = true) rest) as Hshape.
  { intros s H. inversion H as [| |? ? s1 s2 H1 H2| | | |]; subst.
    inversion H1; subst. apply lang_star_class in H2. eauto. }
  assert (forall rest, Forall (fun x => alnum x = true) rest ->
            ~ In underscore rest) as Hrest.
  { intros rest Hall Hin. rewrite Forall_forall in Hall.
    apply list_elem_of_In in Hin. apply Hall in Hin. discriminate. }
  assert (upper underscore = false) as Hu by reflexivity.
  intros [H | (s' & Hs & H)]; apply Hshape in H;
    destruct H as (c & rest & Heq & Hc & Hall).
  - rewrite Heq. split.
    + intros [E | Hin]; [congruence | now apply (Hrest rest)].
    + intros c' rest' E. injection E as <- _. now apply upper_not_digit.
  - rewrite Hs, Heq. split.
    + change ((c :: rest) ++ [newline]) with (c :: rest ++ [newline]).
      intros [E | Hin]; [congruence|].
      apply in_app_iff in Hin as [Hin | [E | []]];
        [now apply (Hrest rest) | discriminate].
    + intros c' rest' E. injection E as <- _. now apply upper_not_digit.
Qed.

(** C3: for a name that does not end in a line feed, as no identifier
    does, [check_class_naming] reports it exactly when it is among the
    names given and is not an uppercase letter followed by letters and
    digits only. A name with an underscore or a leading digit is always
    reported. [Foo1] is not reported; [foo], [Foo_Bar] and [1Foo] are. *)
Theorem C3_check_class_naming :
  (forall classes name,
      ends_with_newline name = false ->
      (In name (check_class_naming classes) <->
       In name classes /\ ~ camel_case name)) /\
  (forall classes name,
      In name classes ->
      In underscore (list_ascii_of_string name) \/
      (exists c rest, list_ascii_of_string name = c :: rest /\
                      digit c = true) ->
      In name (check_class_naming classes)) /\
  check_class_naming ["Foo1"; "foo"; "Foo_Bar"; "1Foo"] =
    ["foo"; "Foo_Bar"; "1Foo"] /\
  camel_case "Foo1" /\
  ~ camel_case "foo" /\ ~ camel_case "Foo_Bar" /\ ~ camel_case "1Foo".
Proof.
  assert (forall name,
    ends_with_newline name = false ->
    re_match class_name_pattern name = false -> ~ camel_case name) as Hno.
  { intros name Hnl Hm Hs. apply re_match_class_name in Hs; congruence. }
  repeat apply conj.
  - intros classes name Hnl. unfold check_class_naming.
    rewrite filter_In, negb_true_iff. split.
    + intros [Hin Hm]. split; [exact Hin | now apply Hno].
    + intros [Hin Hcamel]. split; [exact Hin|].
      destruct (re_match class_name_pattern name) eqn:Hm; [|reflexivity].
      exfalso. apply Hcamel. now apply re_match_class_name.
  - intros classes name Hin Hbad. unfold check_class_naming.
    apply filter_In. split; [exact Hin|]. apply negb_true_iff.
    destruct (re_match class_name_pattern name) eqn:Hm; [|reflexivity].
    exfalso. apply re_match_class_name_chars in Hm as [Hus Hdigit].
    destruct Hbad as [Hin' | (c & rest & Heq & Hd)]; [auto|].
    rewrite (Hdigit c rest Heq) in Hd. discriminate.
  - vm_compute. reflexivity.
  - apply re_match_class_name; reflexivity.
  - apply Hno; reflexivity.
  - apply Hno; reflexivity.
  - apply Hno; reflexivity.
Qed.

(** C3 at the name [Foo_Bar]. *)
Lemma C3_check_class_naming_witness :
  ends_with_newline "Foo_Bar" = false /\
  (In "Foo_Bar" (check_class_naming ["Foo1"; "foo"; "Foo_Bar"; "1Foo"]) <->
   In "Foo_Bar" ["Foo1"; "foo"; "Foo_Bar"; "1Foo"] /\ ~ camel_case "Foo_Bar").
Proof.
  split; [reflexivity|].
  exact (proj1 C3_check_class_naming
           ["Foo1"; "foo"; "Foo_Bar"; "1Foo"] "Foo_Bar" eq_refl).
Defined.

(** * Further properties *)

(** ** Imports *)

(** X1: the list [get_imports] returns is in strictly ascending order, so
    it holds no name twice. *)
Theorem X1_get_imports_sorted tree l :
  get_imports tree = Some l ->
  StronglySorted string_lt l /\ List.NoDup l.
Proof.
  unfold get_imports. intros H.
  destruct (mapM _ _) as [k|]; [|discriminate].
  cbn in H. injection H as <-.
  assert (StronglySorted string_lt (sorted_set k)) as Hs.
  { apply Sorted_StronglySorted; [|apply sorted_set_Sorted].
    intros a b c. apply string_lt_trans. }
  split; [exact Hs | now apply StronglySorted_string_lt_NoDup].
Qed.

(** X1 at [imports_module]. *)
Lemma X1_get_imports_sorted_witness :
  StronglySorted string_lt ["List"; "ast"; "os"] /\
  List.NoDup ["List"; "ast"; "os"].
Proof.
  exact (X1_get_imports_sorted (parse_ast imports_module)
           ["List"; "ast"; "os"] eq_refl).
Defined.

(** X2: a name is in the list [get_imports] returns exactly when it is the
    first alias of an import statement of the tree; the further aliases of
    a statement, and the module of a [from] import, are not looked at. *)
Theorem X2_get_imports_elements tree l :
  get_imports tree = Some l ->
  forall x,
    In x l <->
    exists p n names,
      node_at (root tree) p = Some n /\
      import_names n = Some names /\ first_name names = Some x.
Proof.
  unfold get_imports. intros H x.
  destruct (mapM _ _) as [k|] eqn:Hk; [|discriminate].
  cbn in H. injection H as <-.
  rewrite in_sorted_set, (in_mapM_Some _ _ _ _ Hk). split.
  - intros ([p n] & Hin & Hf). apply filter_In in Hin as [Hin _].
    apply in_walk in Hin. cbn [snd] in Hf. exists p, n.
    unfold import_names. destruct (kind_of n); try discriminate; eauto.
  - intros (p & n & names & Hn & Hi & Hf). exists (p, n).
    unfold import_names in Hi. cbn [snd]. split.
    + apply filter_In. split; [now apply in_walk|]. cbn [snd].
      destruct (kind_of n); try discriminate; reflexivity.
    + destruct (kind_of n); try discriminate; congruence.
Qed.

(** X2 at [imports_module]. *)
Lemma X2_get_imports_elements_witness :
  In "sys" ["List"; "ast"; "os"] <->
  exists p n names,
    node_at imports_module p = Some n /\
    import_names n = Some names /\ first_name names = Some "sys".
Proof.
  exact (X2_get_imports_elements (parse_ast imports_module)
           ["List"; "ast"; "os"] eq_refl "sys").
Defined.

(** X3: [get_imports] fails, on [node.names[0]], exactly when the tree has
    an import statement without aliases. *)
Theorem X3_get_imports_fails tree :
  get_imports tree = None <->
  exists p n, node_at (root tree) p = Some n /\ import_names n = Some [].
Proof.
  unfold get_imports. rewrite fmap_None, mapM_None, Exists_exists. split.
  - intros ([p n] & Hin & Hf). apply list_elem_of_In, filter_In in Hin.
    destruct Hin as [Hin Hg]. apply in_walk in Hin. cbn [snd] in Hf, Hg.
    exists p, n. split; [exact Hin|]. unfold import_names.
    destruct (kind_of n); try discriminate;
      destruct names; try discriminate; reflexivity.
  - intros (p & n & Hn & Hi). exists (p, n). unfold import_names in Hi.
    cbn [snd]. split.
    + apply list_elem_of_In, filter_In. split; [now apply in_walk|].
      cbn [snd]. destruct (kind_of n); try discriminate; reflexivity.
    + destruct (kind_of n); try discriminate;
        injection Hi as ->; reflexivity.
Qed.

(** ** Naming checks on any string *)

(** X4: [check_class_naming] reports a name of the list exactly when
    neither the name nor the name without a final line feed is an uppercase
    letter followed by letters and digits. *)
Theorem X4_check_class_naming_any classes name :
  In name (check_class_naming classes) <->
  In name classes /\
  ~ camel_case name /\
  ~ (exists front,
        name = front +:+ String newline EmptyString /\ camel_case front).
Proof.
  unfold check_class_naming. rewrite filter_In, negb_true_iff.
  rewrite <- not_true_iff_false, re_match_any.
  setoid_rewrite class_name_pattern_spec. tauto.
Qed.

(** X5: [check_function_naming] reports a name exactly when a function
    declaration of the tree bears it, it is not a special method, and
    neither the name nor the name without a final line feed is in snake
    case. *)
Theorem X5_check_function_naming_any tree name :
  In name (check_function_naming tree) <->
  (exists p n, node_at (root tree) p = Some n /\
               is_FunctionDef n = true /\ decl_name n = name) /\
  is_special_method name = false /\
  ~ snake_case name /\
  ~ (exists front,
        name = front +:+ String newline EmptyString /\ snake_case front).
Proof.
  rewrite check_function_naming_omap, in_omap.
  assert (re_match function_name_pattern name = false <->
          ~ snake_case name /\
          ~ (exists front,
                name = front +:+ String newline EmptyString /\
                snake_case front)) as Hm.
  { rewrite <- not_true_iff_false, re_match_any.
    setoid_rewrite function_name_pattern_spec. tauto. }
  split.
  - intros ([p n] & Hin & Hbad). apply in_walk in Hin.
    apply bad_name_of_spec in Hbad. cbn [snd] in Hbad.
    destruct Hbad as (Hf & Hname & Hs & Hre). apply Hm in Hre.
    split; [eauto | tauto].
  - intros ((p & n & Hn & Hf & Hname) & Hs & Hsnake).
    exists (p, n). split; [now apply in_walk|].
    apply bad_name_of_spec. cbn [snd]. repeat split; auto.
    now apply Hm.
Qed.

(** ** Free functions without parent attributes *)

(** X6: on a tree that [add_parents] has not been run on, no node has a
    [parent] attribute and [get_functions] returns the names of all the
    function declarations, methods included. *)
Theorem X6_get_functions_without_parents (t : node) :
  get_functions (parse_ast t) =
  map (fun pn => decl_name pn.2)
      (List.filter (fun pn => is_FunctionDef pn.2) (walk t)).
Proof.
  rewrite get_functions_omap. change (root (parse_ast t)) with t.
  apply omap_map_filter. intros [p [k cs]].
  unfold function_of, getattr_parent, is_FunctionDef, decl_name.
  change (parent (parse_ast t)) with (∅ : gmap obj path).
  rewrite lookup_empty. cbn [fst snd kind_of]. now destruct k.
Qed.

(** ** Annotations of plain parameters *)

Lemma parameters_plain fargs :
  posonlyargs fargs = [] -> vararg fargs = None ->
  kwonlyargs fargs = [] -> kwarg fargs = None ->
  parameters fargs = args fargs.
Proof.
  unfold parameters. intros -> -> -> ->. cbn. now rewrite app_nil_r.
Qed.

(** X7: when every function declaration of the tree has
    positional-or-keyword parameters only, [get_type_annotation_issues]
    lists exactly the non-special declarations with a parameter or the
    return type left unannotated, once each. *)
Theorem X7_annotation_issues_plain_parameters tree :
  forallb (fun pn => only_plain_parameters pn.2) (walk (root tree)) = true ->
  get_type_annotation_issues tree =
  map (fun pn => decl_name pn.2)
      (List.filter is_unannotated_decl (walk (root tree))).
Proof.
  intros Hplain. rewrite forallb_forall in Hplain.
  rewrite get_type_annotation_issues_omap.
  rewrite (omap_ext_in _
    (fun pn => if is_unannotated_decl pn then Some (decl_name pn.2)
               else None)).
  - now apply omap_map_filter.
  - intros [p [k cs]] Hin. specialize (Hplain _ Hin).
    unfold missing_annotation_of, is_unannotated_decl, decl_name,
      only_plain_parameters, lacks_annotation in *.
    cbn [snd kind_of] in *. destruct k; try reflexivity.
    destruct (is_special_method name); [reflexivity|].
    destruct (posonlyargs fargs) eqn:E1; [|discriminate].
    destruct (vararg fargs) eqn:E2; [discriminate|].
    destruct (kwonlyargs fargs) eqn:E3; [|discriminate].
    destruct (kwarg fargs) eqn:E4; [discriminate|].
    rewrite (parameters_plain fargs E1 E2 E3 E4). cbn [negb andb].
    destruct (forallb _ _); destruct (truthy returns); reflexivity.
Qed.

(** X7 at [foo_module]: only the method [bar] is listed. *)
Lemma X7_annotation_issues_plain_parameters_witness :
  get_type_annotation_issues (add_parents (parse_ast foo_module)) =
  map (fun pn => decl_name pn.2)
      (List.filter is_unannotated_decl (walk foo_module)).
Proof.
  exact (X7_annotation_issues_plain_parameters
           (add_parents (parse_ast foo_module)) eq_refl).
Defined.

(** ** What [add_parents] writes *)

(** X8: whatever [parent] attributes there were before, after
    [add_parents] every node of the tree but the root that is an object of
    its own has the node it is a direct child of as its [parent]; a shared
    object has the node above the position where the walk meets it last;
    and the attribute of every object that is not below the root of the
    tree, the root among them, is what it was. *)
Theorem X8_add_parents_overwrites tree :
  (forall p n,
      node_at (root tree) p = Some n -> p <> [] -> is_singleton n = false ->
      parent (add_parents tree) !! obj_of (p, n) = Some (removelast p) /\
      child_of (root tree) (removelast p) p) /\
  (forall class_name l1 p n l2,
      walk (root tree) = l1 ++ (p, n) :: l2 -> p <> [] ->
      kind_of n = Singleton class_name ->
      (forall pn, In pn l2 -> kind_of pn.2 <> Singleton class_name) ->
      parent (add_parents tree) !! inr class_name = Some (removelast p)) /\
  (forall o,
      (forall p n, node_at (root tree) p = Some n -> p <> [] ->
                   obj_of (p, n) <> o) ->
      parent (add_parents tree) !! o = parent tree !! o) /\
  parent (add_parents tree) !! inl [] = parent tree !! inl [].
Proof.
  repeat apply conj.
  - intros p n Hn Hne Hs. split.
    + rewrite (proj2 (obj_of_inl p n p) (conj Hs eq_refl)).
      rewrite lookup_add_parents. destruct p; [congruence|].
      now rewrite Hn, Hs.
    + eapply child_of_valid; eauto.
  - intros class_name l1 p n l2 Hw Hne Hn Hl2.
    destruct l1 as [|x l1].
    + exfalso. rewrite (walk_children (root tree)) in Hw. cbn [app] in Hw.
      inversion Hw; subst. congruence.
    + apply (lookup_add_parents_singleton tree _ l1 p n l2); auto.
      now rewrite Hw.
  - intros [p|class_name] Hnot.
    + rewrite lookup_add_parents. destruct p as [|i p]; [reflexivity|].
      destruct (node_at (root tree) (i :: p)) as [n|] eqn:Hn; [|reflexivity].
      destruct (is_singleton n) eqn:Hs; [reflexivity|].
      exfalso. apply (Hnot (i :: p) n Hn); [discriminate|].
      now apply obj_of_inl.
    + apply lookup_add_parents_no_singleton. intros [p n] Hin Hk.
      apply in_tl_walk in Hin as [Hn Hne].
      apply (Hnot p n Hn Hne). now apply obj_of_inr.
  - now rewrite lookup_add_parents.
Qed.

(** X9: [ast.walk] yields every position of the tree once, and
    [add_parents] makes one assignment for every item the walk yields
    after the root: to the object of the item, of the node above its
    position. So the assignments are as many as the nodes less one; a node
    that is an object of its own is assigned to once; a shared object is
    assigned to as often as it occurs; and the attributes in the end are
    the result of these assignments. *)
Theorem X9_each_node_once (t : node) :
  (forall p n, In (p, n) (walk t) <-> node_at t p = Some n) /\
  NoDup (map fst (walk t)) /\
  length (walk t) = node_size t /\
  assignments t =
    map (fun pn => (obj_of pn, removelast pn.1)) (tl (walk t)) /\
  S (length (assignments t)) = node_size t /\
  NoDup (own_objects (map fst (assignments t))) /\
  (forall attrs,
      parent (add_parents (mk_ast t attrs)) =
      fold_left (fun m kv => <[kv.1 := kv.2]> m) (assignments t) attrs).
Proof.
  pose proof (NoDup_walk t) as Hnd.
  pose proof (length_walk t) as Hlen.
  rewrite (walk_children t), <- tl_walk in Hnd, Hlen.
  cbn [map fst length] in Hnd, Hlen.
  apply NoDup_cons in Hnd as [Hroot Hrest].
  repeat apply conj.
  - apply in_walk.
  - apply NoDup_walk.
  - apply length_walk.
  - apply assignments_walk.
  - rewrite <- Hlen. f_equal. now rewrite assignments_walk, length_map.
  - rewrite assignments_walk, map_map. cbn [fst].
    now apply NoDup_own_objects.
  - intros attrs. exact (add_parents_assignments (mk_ast t attrs)).
Qed.

(** ** The order of the visit *)

(** X10: the extractors visit the root first and then the children of the
    nodes visited, in the order of the visit; the depth never decreases
    along the way. *)
Theorem X10_visit_order (t : node) :
  walk t = ([], t) :: flat_map child_nodes (walk t) /\
  StronglySorted (fun x y : path * node => length x.1 <= length y.1)
                 (walk t).
Proof.
  split; [apply walk_children|].
  rewrite walk_level_order. apply StronglySorted_levels.
Qed.

(** X11: the names [get_classes] returns, and the entries of
    [get_docstrings], are those pre-order gives, each as often, in another
    order; so are the names of the other extractors. *)
Theorem X11_same_items_as_preorder tree :
  Permutation (get_classes tree)
              (omap class_name_of (preorder [] (root tree))) /\
  Permutation (get_docstrings tree)
              (omap docstring_of (preorder [] (root tree))) /\
  Permutation (get_functions tree)
              (omap (function_of tree) (preorder [] (root tree))) /\
  Permutation (get_type_annotation_issues tree)
              (omap missing_annotation_of (preorder [] (root tree))) /\
  Permutation (check_function_naming tree)
              (omap bad_name_of (preorder [] (root tree))).
Proof.
  pose proof (walk_preorder_Permutation (root tree)) as Hperm.
  repeat apply conj.
  - unfold get_classes. now apply omap_Permutation_compat.
  - rewrite get_docstrings_omap. now apply omap_Permutation_compat.
  - rewrite get_functions_omap. now apply omap_Permutation_compat.
  - rewrite get_type_annotation_issues_omap.
    now apply omap_Permutation_compat.
  - rewrite check_function_naming_omap. now apply omap_Permutation_compat.
Qed.

(** ** Counting *)

(** X12: every class and every function declaration is accounted for once,
    by a docstring entry or in the list of special methods: the entries and
    the special methods are together as many as the classes and the
    function declarations. *)
Theorem X12_declarations_accounted_for tree :
  length (get_docstrings tree) + length (get_special_methods tree) =
  length (get_classes tree) +
  length (List.filter (fun pn => is_FunctionDef pn.2) (walk (root tree))).
Proof.
  rewrite get_docstrings_omap. unfold get_special_methods, get_classes.
  induction (walk (root tree)) as [|[p [k cs]] l IH]; [reflexivity|].
  change ((p, Node k cs) :: l) with ([(p, Node k cs)] ++ l).
  rewrite !omap_app, List.filter_app, !length_app.
  assert (length (omap docstring_of [(p, Node k cs)]) +
          length (omap (fun pn : path * node =>
                          match kind_of pn.2 with
                          | FunctionDef name _ _ _ =>
                              if is_special_method name then Some name
                              else None
                          | _ => None
                          end) [(p, Node k cs)]) =
          length (omap (fun pn : path * node =>
                          match kind_of pn.2 with
                          | ClassDef name _ => Some name
                          | _ => None
                          end) [(p, Node k cs)]) +
          length (List.filter (fun pn : path * node => is_FunctionDef pn.2)
                              [(p, Node k cs)])) as Hone.
  { destruct k; try reflexivity.
    cbn. unfold docstring_of. cbn. now destruct (is_special_method name). }
  lia.
Qed.

(** ** Special names *)

Lemma endswith_tail suf a s :
  endswith suf (String a s) = true ->
  String.length suf <= String.length s ->
  endswith suf s = true.
Proof.
  cbn [endswith]. intros H Hlen. apply orb_true_iff in H as [H | H].
  - apply String.eqb_eq in H. subst suf. cbn in Hlen. lia.
  - exact H.
Qed.

(** X13: the special names are [__], [___] and the names [__x__], for any
    [x], empty or not: the two markers may overlap. *)
Theorem X13_special_names name :
  is_special_method name = true <->
  name = "__" \/ name = "___" \/
  exists middle, name = "__" +:+ middle +:+ "__".
Proof.
  unfold is_special_method. rewrite andb_true_iff, startswith_spec. split.
  - intros [[rest ->] Hend].
    destruct rest as [|c1 [|c2 r]].
    + now left.
    + right. left. apply endswith_spec in Hend as [front E].
      destruct front as [|a [|b front]]; cbn in E.
      * discriminate.
      * inversion E; subst. reflexivity.
      * inversion E as [[Ea Eb Ec]].
        destruct front as [|x [|y front]]; cbn in Ec; discriminate.
    + right. right.
      apply endswith_tail in Hend; [|cbn; lia].
      apply endswith_tail in Hend; [|cbn; lia].
      apply endswith_spec in Hend as [middle ->]. now exists middle.
  - intros [-> | [-> | [middle ->]]].
    + split; [now exists EmptyString | reflexivity].
    + split; [now exists "_" | reflexivity].
    + split; [now exists (middle +:+ "__")|].
      apply endswith_spec. now exists ("__" +:+ middle).
Qed.
